(** * generer_dataset.py: the dataset augmentor

    A shallow embedding of [generer_dataset.py].  The script loads a CSV of
    predictor columns with pandas, checks that the three predictors are
    present, derives [Final_Exam_Score] (a noisy linear score, clipped to
    [0.0, 20.0]) and [Passed_Course] (score >= threshold), and exports the
    table with [to_csv].

    Numbers are IEEE 754 binary64 values, as numpy computes them: Rocq's
    primitive [float] with the operations of [PrimFloat]; their meaning is
    given by [SpecFloat] through the specification axioms of [FloatAxioms]. *)

From Stdlib Require Import ZArith Lia Bool List Floats.
From stdpp Require Import base tactics option list gmap strings.

Local Open Scope Z_scope.
Set Warnings "-inexact-float".

(** * The script *)

(** ** Configuration (lines 16-38) *)

Record config := {
  input_filename : string;
  output_filename : string;
  input_delimiter : string;
  output_delimiter : string;
  base_score : float;
  weight_hours : float;
  weight_prev : float;
  weight_attendance : float;
  bruit_amplitude : float;
  note_passage : float
}.

Definition source_config : config := {|
  input_filename := "mockaroo_predicteurs.csv";
  output_filename := "dataset_etudiant_corrélé.csv";
  input_delimiter := ",";
  output_delimiter := ",";
  base_score := 8.0%float;
  weight_hours := 0.6%float;
  weight_prev := 0.15%float;
  weight_attendance := 0.02%float;
  bruit_amplitude := 1.5%float;
  note_passage := 15.0%float
|}.

(** ** Tables

    A pandas column has one dtype.  [read_csv] yields [float64] (missing cells
    are NaN), [int64], [bool] and [object] (text) columns. *)

Inductive Series :=
| Float64 (xs : list float)
| Int64 (xs : list Z)
| Boolean (xs : list bool)
| Object (xs : list string).

Definition Series_len (s : Series) : nat :=
  match s with
  | Float64 xs => length xs
  | Int64 xs => length xs
  | Boolean xs => length xs
  | Object xs => length xs
  end.

(** A frame is its row count (the [RangeIndex]) and its labelled columns,
    in order. *)
Record DataFrame := {
  nrows : nat;
  columns : list (string * Series)
}.

Definition column_names (df : DataFrame) : list string := (columns df).*1.

(** [col in data.columns] *)
Definition has_column (col : string) (df : DataFrame) : bool :=
  bool_decide (col ∈ column_names df).

(** [data[col]] *)
Fixpoint assoc_get (col : string) (cs : list (string * Series)) : option Series :=
  match cs with
  | [] => None
  | (c, s) :: cs' => if String.eqb c col then Some s else assoc_get col cs'
  end.

Definition get_col (col : string) (df : DataFrame) : option Series :=
  assoc_get col (columns df).

(** [data[col] = s]: an existing label keeps its position and takes the new
    values, a new label is appended as the last column. *)
Fixpoint assoc_set (col : string) (s : Series) (cs : list (string * Series))
  : list (string * Series) :=
  match cs with
  | [] => [(col, s)]
  | (c, s0) :: cs' =>
      if String.eqb c col then (c, s) :: cs' else (c, s0) :: assoc_set col s cs'
  end.

Definition set_col (col : string) (s : Series) (df : DataFrame) : DataFrame :=
  {| nrows := nrows df; columns := assoc_set col s (columns df) |}.

(** [data.drop(columns=[col])] *)
Definition drop_col (col : string) (df : DataFrame) : DataFrame :=
  {| nrows := nrows df;
     columns := List.filter (λ cs, negb (String.eqb cs.1 col)) (columns df) |}.

(** Frames as [read_csv] builds them: labels are unique and every column has
    one cell per row. *)
Definition wf_frame (df : DataFrame) : Prop :=
  NoDup (column_names df) ∧
  Forall (λ cs, Series_len cs.2 = nrows df) (columns df).

(** ** Arithmetic on columns *)

(** The exceptions lines 78-97 raise on the columns [Series] represents:
    looking up a label the table does not carry ([KeyError]) and
    multiplying a text cell by a weight ([TypeError]).  Cells [Series] does
    not represent (Python integers too large for 64 bits, which [read_csv]
    keeps as objects and whose conversion can raise [OverflowError]) are
    outside the model. *)
Inductive exn := KeyError | TypeError.

Inductive res (A : Type) :=
| Ok (a : A)
| Raise (e : exn).
Arguments Ok {A} a.
Arguments Raise {A} e.

Definition bind {A B} (r : res A) (k : A → res B) : res B :=
  match r with
  | Ok a => k a
  | Raise e => Raise e
  end.

Notation "x <-- r ;; k" := (bind r (λ x, k))
  (at level 100, r at next level, right associativity).

(** The conversion numpy applies to an [int64] operand of a [float64]
    operation: the nearest binary64 value, ties to even. *)
Definition of_int64 (z : Z) : float :=
  SF2Prim (binary_normalize prec emax z 0 false).

(** The [float64] view of a column, as the arithmetic of lines 81-85 takes
    it.  Text cells have none: multiplying them by a float raises
    [TypeError]; a column without rows has no cell to fail on. *)
Definition as_float64 (s : Series) : res (list float) :=
  match s with
  | Float64 xs => Ok xs
  | Int64 xs => Ok (of_int64 <$> xs)
  | Boolean xs => Ok ((λ b : bool, if b then 1.0%float else 0.0%float) <$> xs)
  | Object [] => Ok []
  | Object (_ :: _) => Raise TypeError
  end.

(** [data[col]] as an operand; the label is checked before (lines 64-69). *)
Definition operand (col : string) (df : DataFrame) : res (list float) :=
  match get_col col df with
  | Some s => as_float64 s
  | None => Raise KeyError
  end.

(** ** The random generator

    [np.random.rand(n)] returns the next [n] draws of the process-wide
    generator; [draw i] is the i-th of them.  Each lies in [0, 1). *)
Definition np_random_rand (draw : nat → float) (n : nat) : list float :=
  draw <$> seq 0 n.

Definition unit_interval (u : float) : Prop :=
  (0 <=? u)%float = true ∧ (u <? 1)%float = true.

(** ** Generating the targets (lines 78-97) *)

(** Line 78, one cell. *)
Definition bruit (cfg : config) (u : float) : float :=
  ((u - 0.5) * bruit_amplitude cfg)%float.

Definition bruit_aleatoire (cfg : config) (draw : nat → float) (n : nat) : list float :=
  bruit cfg <$> np_random_rand draw n.

(** Lines 81-85, one row: the sum associates to the left. *)
Definition score_brut (cfg : config) (h p a b : float) : float :=
  (base_score cfg + weight_hours cfg * h + weight_prev cfg * p
   + weight_attendance cfg * a + b)%float.

(** Lines 81-85 on whole columns: every [+] and [*] is elementwise. *)
Definition raw_scores (cfg : config) (h p a noise : list float) : list float :=
  zip_with PrimFloat.add
    (zip_with PrimFloat.add
       (zip_with PrimFloat.add
          (PrimFloat.add (base_score cfg) <$> (PrimFloat.mul (weight_hours cfg) <$> h))
          (PrimFloat.mul (weight_prev cfg) <$> p))
       (PrimFloat.mul (weight_attendance cfg) <$> a))
    noise.

Definition Final_Exam_Score_brut (cfg : config) (draw : nat → float) (df : DataFrame)
  : res (list float) :=
  let noise := bruit_aleatoire cfg draw (nrows df) in
  h <-- operand "Hours_Studied" df ;;
  p <-- operand "Previous_Score" df ;;
  a <-- operand "Attendance_Rate" df ;;
  Ok (raw_scores cfg h p a noise).

(** [Series.clip(lower, upper)] on one cell: a missing value stays missing,
    a value below [lower] becomes [lower], one above [upper] becomes [upper]. *)
Definition clip (lower upper x : float) : float :=
  let mask := is_nan x in
  let r := if mask || (lower <=? x)%float then x else lower in
  if mask || (x <=? upper)%float then r else upper.

(** [(x >= note_passage).astype(int)] on one cell. *)
Definition passed (cfg : config) (x : float) : Z :=
  if (note_passage cfg <=? x)%float then 1 else 0.

(** One row of lines 81-94. *)
Definition final_score (cfg : config) (h p a b : float) : float :=
  clip 0.0 20.0 (score_brut cfg h p a b).

(** Lines 78-97. The columns are assigned by label, then the raw one is
    dropped; lines 89 and 94 read back the column assigned just before. *)
Definition generate (cfg : config) (draw : nat → float) (data : DataFrame)
  : res DataFrame :=
  brut <-- Final_Exam_Score_brut cfg draw data ;;
  let data := set_col "Final_Exam_Score_brut" (Float64 brut) data in
  let score := clip 0.0 20.0 <$> brut in
  let data := set_col "Final_Exam_Score" (Float64 score) data in
  let data := set_col "Passed_Course" (Int64 (passed cfg <$> score)) data in
  Ok (drop_col "Final_Exam_Score_brut" data).

(** ** Files *)

(** What a path holds, as [read_csv] sees it with the configured
    delimiter: content it cannot parse, or a delimited table. *)
Inductive file :=
| Unparseable
| Delimited (t : DataFrame).

Abbreviation filesystem := (gmap string file).

(** [pd.read_csv(path, sep=sep)]: [None] when it raises. *)
Definition read_csv (f : file) (sep : string) : option DataFrame :=
  match f with
  | Unparseable => None
  | Delimited t => Some t
  end.

(** The table [to_csv] writes; with [index = true] the row labels come
    first, as an unnamed column. *)
Definition csv_table (index : bool) (df : DataFrame) : DataFrame :=
  {| nrows := nrows df;
     columns := if index
                then ("", Int64 (Z.of_nat <$> seq 0 (nrows df))) :: columns df
                else columns df |}.

Definition Series_head (k : nat) (s : Series) : Series :=
  match s with
  | Float64 xs => Float64 (take k xs)
  | Int64 xs => Int64 (take k xs)
  | Boolean xs => Boolean (take k xs)
  | Object xs => Object (take k xs)
  end.

(** The first [k] rows. *)
Definition head (k : nat) (df : DataFrame) : DataFrame :=
  {| nrows := Nat.min k (nrows df);
     columns := (λ cs, (cs.1, Series_head k cs.2)) <$> columns df |}.

(** How the destination behaves during the export: the write goes through;
    the file cannot be opened; the device fails once [k] rows are out; or
    the file is opened, which creates or truncates it, and the write fails
    at any other point, leaving [partial]: no byte at all (which [read_csv]
    cannot parse), a header cut short, or rows the last of which is cut
    short.  No constraint is put on [partial]. *)
Inductive write_fault :=
| NoFault
| CannotOpen
| FailsAfter (k : nat)
| FailsPartway (partial : file).

(** [data.to_csv(path, sep=sep, index=index)]: opening the destination
    truncates it, rows are written in order; [false] when an exception is
    raised. *)
Definition to_csv (fault : write_fault) (path sep : string) (index : bool)
  (df : DataFrame) (fs : filesystem) : bool * filesystem :=
  match fault with
  | NoFault => (true, <[path := Delimited (csv_table index df)]> fs)
  | CannotOpen => (false, fs)
  | FailsAfter k => (false, <[path := Delimited (head k (csv_table index df))]> fs)
  | FailsPartway partial => (false, <[path := partial]> fs)
  end.

(** ** The script *)

Definition required_predictors : list string :=
  ["Hours_Studied"; "Previous_Score"; "Attendance_Rate"].

(** How a run ends. *)
Inductive outcome :=
| ExitNotFound                        (* lines 44-47 *)
| ExitLoadError                       (* lines 58-61 *)
| ExitMissing (missing : list string) (* lines 65-69 *)
| Uncaught (e : exn)                  (* an exception of lines 78-97 *)
| ExportError                         (* lines 115-117 *)
| Finished.                           (* line 112 *)

Definition script (cfg : config) (draw : nat → float) (fault : write_fault)
  (fs : filesystem) : outcome * filesystem :=
  match fs !! input_filename cfg with
  | None => (ExitNotFound, fs)
  | Some f =>
      match read_csv f (input_delimiter cfg) with
      | None => (ExitLoadError, fs)
      | Some data =>
          if negb (forallb (λ col, has_column col data) required_predictors) then
            let missing :=
              List.filter (λ col, negb (has_column col data)) required_predictors in
            (ExitMissing missing, fs)
          else
            match generate cfg draw data with
            | Raise e => (Uncaught e, fs)
            | Ok data =>
                match to_csv fault (output_filename cfg) (output_delimiter cfg)
                        false data fs with
                | (true, fs') => (Finished, fs')
                | (false, fs') => (ExportError, fs')
                end
            end
      end
  end.

(** * Definitions for the statements and their proofs *)

(** ** Binary64 values as scaled integers *)

(** [m / 2^n] rounded to the nearest integer, ties to the even one; this is
    what [shr] followed by [round_nearest_even] computes on the mantissa. *)
Definition rne (n m : Z) : Z :=
  if n <=? 0 then m
  else
    let q := m / 2 ^ n in
    match m mod 2 ^ n ?= 2 ^ (n - 1) with
    | Lt => q
    | Eq => if Z.even q then q else q + 1
    | Gt => q + 1
    end.

(** Exact values are kept as integers: the integer [v] stands for the real
    [v * 2^-K].  Every finite binary64 value, every sum and every product of
    two of them is such an integer. *)
Definition K : Z := 2200.

(** The position (in bits of the scaled integer) of the last place a
    binary64 value near [v] has: 53 significant bits, and never below the
    subnormal exponent -1074. *)
Definition grid (v : Z) : Z := Z.max (Z.log2 v + 1 - 53) (K - 1074).

(** The nearest binary64 value to a positive [v], ties to even, before the
    overflow test. *)
Definition RND (v : Z) : Z := rne (grid v) v * 2 ^ grid v.

(** The sticky bit of a shift: some bit shifted out is set. *)
Definition nz (x : Z) : bool := negb (x =? 0).

(** [2^1024], the first magnitude that rounds to an infinity. *)
Definition overflow_threshold : Z := 2 ^ (K + 1024).

(** The key of [+infinity]: above every finite value. *)
Definition INF : Z := 2 ^ (K + 1100).

Definition sgn (s : bool) (x : Z) : Z := if s then - x else x.

(** Overflow: a rounded magnitude of [2^1024] or more becomes infinite. *)
Definition sat (r : Z) : Z := if r <? overflow_threshold then r else INF.

(** The key of a value: its exact value as a scaled integer, [INF] and
    [- INF] for the infinities.  On valid values other than NaN the order
    of the keys is the order [SFcompare] decides. *)
Definition key (x : spec_float) : Z :=
  match x with
  | S754_zero _ => 0
  | S754_infinity s => sgn s INF
  | S754_nan => 0
  | S754_finite s m e => sgn s (Z.pos m * 2 ^ (e + K))
  end.

Definition is_nan_sf (x : spec_float) : bool :=
  match x with S754_nan => true | _ => false end.

(** Rounding to nearest-even with overflow, on signed exact values. *)
Definition SRND (w : Z) : Z := if w <? 0 then - sat (RND (- w)) else sat (RND w).

(** [r] is the binary64 value with sign [s] that the exact magnitude [w]
    rounds to. *)
Definition rounded (s : bool) (w : Z) (r : spec_float) : Prop :=
  valid_binary r = true /\ is_nan_sf r = false /\ key r = sgn s (sat (RND w)) /\
  match r with
  | S754_zero s' | S754_infinity s' | S754_finite s' _ _ => s' = s
  | S754_nan => False
  end /\
  (RND w = 0 <-> exists s', r = S754_zero s').

(** Zeros and finite values. *)
Definition is_finite_sf (x : spec_float) : bool :=
  match x with
  | S754_zero _ | S754_finite _ _ _ => true
  | _ => false
  end.

(** The key of a product by a positive finite constant of key [kc], and of
    a sum that is not NaN, from the keys of the operands. *)
Definition mulkey (kc k : Z) : Z :=
  if Z.abs k =? INF then k else SRND (kc * k / 2 ^ K).

Definition addkey (k1 k2 : Z) : Z :=
  if Z.abs k1 =? INF then k1
  else if Z.abs k2 =? INF then k2
  else SRND (k1 + k2).

(** The key of a primitive float. *)
Definition fkey (x : float) : Z := key (Prim2SF x).

(** A positive finite value, as the weights of the script are. *)
Definition pos_finite (c : float) : Prop :=
  match Prim2SF c with
  | S754_finite false _ _ => True
  | _ => False
  end.

(** A finite number: neither NaN nor an infinity. *)
Definition finite (x : float) : Prop := is_finite_sf (Prim2SF x) = true.

(** [lo <= x <= hi], with the comparisons of binary64. *)
Definition between (lo hi x : float) : Prop :=
  (lo <=? x)%float = true /\ (x <=? hi)%float = true.

(** Order up to missing values, as the additions of lines 81-85 keep it:
    [x] is NaN, or [x <= x'], or [x'] is NaN and [x] is [-infinity] (a sum
    turns NaN when raising an operand to [+infinity] meets [-infinity]). *)
Definition weak_le (x x' : float) : Prop :=
  is_nan x = true \/ (x <=? x')%float = true \/
  (is_nan x' = true /\ x = neg_infinity).

(** The largest finite value. *)
Definition max_float : float := 0x1.fffffffffffffp+1023%float.

(** ** Vocabulary of the statements *)

(** The frame lines 81-97 build from the raw scores. *)
Definition targets (cfg : config) (brut : list float) (data : DataFrame) : DataFrame :=
  let score := clip 0.0 20.0 <$> brut in
  drop_col "Final_Exam_Score_brut"
    (set_col "Passed_Course" (Int64 (passed cfg <$> score))
       (set_col "Final_Exam_Score" (Float64 score)
          (set_col "Final_Exam_Score_brut" (Float64 brut) data))).

(** The labels lines 81-94 assign. *)
Definition assigned (c : string) : bool :=
  String.eqb c "Final_Exam_Score_brut" || String.eqb c "Final_Exam_Score"
  || String.eqb c "Passed_Course".

(** The columns under the other labels. *)
Definition kept (x : string * Series) : bool := negb (assigned x.1).

(** Score [s'] is not below score [s]: it is not less, it is greater or
    equal when both are numbers, and its outcome is not lower. *)
Definition not_below (cfg : config) (s s' : float) : Prop :=
  (s' <? s)%float = false ∧
  (is_nan s = false → is_nan s' = false → (s <=? s')%float = true) ∧
  passed cfg s <= passed cfg s'.

(** The configuration with another noise amplitude. *)
Definition with_amplitude (amp : float) (cfg : config) : config := {|
  input_filename := input_filename cfg;
  output_filename := output_filename cfg;
  input_delimiter := input_delimiter cfg;
  output_delimiter := output_delimiter cfg;
  base_score := base_score cfg;
  weight_hours := weight_hours cfg;
  weight_prev := weight_prev cfg;
  weight_attendance := weight_attendance cfg;
  bruit_amplitude := amp;
  note_passage := note_passage cfg
|}.

(** What a failed run leaves behind.  Before the export nothing is written.
    A failing export changes no path other than the destination and never
    removes the destination; the destination is untouched when it could
    not be opened, and otherwise holds what had reached it: the first [k]
    rows of the result when the device failed after [k] rows, the content
    the fault left in every other case. *)
Definition failure_effects (cfg : config) (draw : nat → float) (fault : write_fault)
  (fs : filesystem) (o : outcome) (fs' : filesystem) : Prop :=
  (o ≠ ExportError → fs' = fs) ∧
  (o = ExportError →
     (∀ path, path ≠ output_filename cfg → fs' !! path = fs !! path) ∧
     (is_Some (fs !! output_filename cfg) → is_Some (fs' !! output_filename cfg)) ∧
     match fault with
     | NoFault => False
     | CannotOpen => fs' = fs
     | FailsAfter k =>
         ∃ data out,
           fs !! input_filename cfg = Some (Delimited data) ∧
           generate cfg draw data = Ok out ∧
           fs' = <[output_filename cfg := Delimited (head k out)]> fs
     | FailsPartway partial => fs' = <[output_filename cfg := partial]> fs
     end).

(** Lines 81-84 on one row: the sum before the noise is added. *)
Definition noiseless_score (cfg : config) (h p a : float) : float :=
  (base_score cfg + weight_hours cfg * h + weight_prev cfg * p
   + weight_attendance cfg * a)%float.

(** The dtypes the arithmetic of lines 81-85 accepts. *)
Definition numeric (s : Series) : bool :=
  match s with
  | Object _ => false
  | _ => true
  end.

(** ** Sample tables *)

(** Three rows: the rows of scenarios A and B of the specification and one
    whose noiseless score is the threshold; an integer predictor column and
    a text column besides the predictors. *)
Definition three_students : DataFrame := {|
  nrows := 3;
  columns := [("Hours_Studied", Float64 [10; 0; 5]%float);
              ("Previous_Score", Int64 [80; 0; 20]);
              ("Attendance_Rate", Float64 [90; 0; 50]%float);
              ("Student", Object ["Ada"; "Bo"; "Cy"])]
|}.

(** What the script makes of [three_students] when every draw is 0.5
    (no noise). *)
Definition three_students_out : DataFrame := {|
  nrows := 3;
  columns := [("Hours_Studied", Float64 [10; 0; 5]%float);
              ("Previous_Score", Int64 [80; 0; 20]);
              ("Attendance_Rate", Float64 [90; 0; 50]%float);
              ("Student", Object ["Ada"; "Bo"; "Cy"]);
              ("Final_Exam_Score", Float64 [20; 8; 15]%float);
              ("Passed_Course", Int64 [1; 0; 1])]
|}.

Definition two_students : DataFrame := {|
  nrows := 2;
  columns := [("Hours_Studied", Float64 [10; 0]%float);
              ("Previous_Score", Float64 [80; 0]%float);
              ("Attendance_Rate", Float64 [90; 0]%float)]
|}.

(** The table of P4: no [Attendance_Rate]. *)
Definition no_attendance : DataFrame := {|
  nrows := 1;
  columns := [("Hours_Studied", Float64 [10]%float);
              ("Previous_Score", Float64 [80]%float)]
|}.

(** A table that already carries the targets, such as an earlier output of
    the script given to it again. *)
Definition earlier_output : DataFrame := {|
  nrows := 1;
  columns := [("Hours_Studied", Float64 [5]%float);
              ("Previous_Score", Float64 [20]%float);
              ("Attendance_Rate", Float64 [50]%float);
              ("Final_Exam_Score", Float64 [15.5]%float);
              ("Passed_Course", Int64 [1])]
|}.

(** A table with a missing cell: [read_csv] loads the empty field as NaN. *)
Definition missing_cell : DataFrame := {|
  nrows := 2;
  columns := [("Hours_Studied", Float64 [10; nan]%float);
              ("Previous_Score", Float64 [80; 60]%float);
              ("Attendance_Rate", Float64 [90; 75]%float)]
|}.

(** What the script makes of [missing_cell] when every draw is 0.5. *)
Definition missing_cell_out : DataFrame := {|
  nrows := 2;
  columns := [("Hours_Studied", Float64 [10; nan]%float);
              ("Previous_Score", Float64 [80; 60]%float);
              ("Attendance_Rate", Float64 [90; 75]%float);
              ("Final_Exam_Score", Float64 [20; nan]%float);
              ("Passed_Course", Int64 [1; 0])]
|}.

(** A table whose hours are text. *)
Definition text_hours : DataFrame := {|
  nrows := 2;
  columns := [("Hours_Studied", Object ["ten"; "3"]);
              ("Previous_Score", Float64 [80; 60]%float);
              ("Attendance_Rate", Float64 [90; 75]%float)]
|}.

(** * Binary64 arithmetic *)

Module Binary64.

(** The operations of [PrimFloat] are specified by [SpecFloat], which
    rounds by shifting mantissas.  This part relates that to exact values:
    a finite value is the integer [key], an operation is the exact
    operation on keys followed by [SRND], and [SRND] is monotone.  From
    there, sums and products by positive constants keep the order. *)

(** ** Rounding on integers *)

Lemma pow2_pos n : 0 <= n -> 0 < 2 ^ n.
Proof. intros. apply Z.pow_pos_nonneg; lia. Qed.

Lemma pow2_half n : 0 < n -> 2 ^ n = 2 * 2 ^ (n - 1).
Proof.
  intros. replace n with (Z.succ (n - 1)) at 1 by lia.
  rewrite Z.pow_succ_r by lia. reflexivity.
Qed.

Lemma rne_bounds n m : 0 < n -> m / 2 ^ n <= rne n m <= m / 2 ^ n + 1.
Proof.
  intros Hn. unfold rne.
  destruct (Z.leb_spec n 0); [lia|].
  destruct (_ ?= _); [destruct (Z.even _)|..]; lia.
Qed.

(** Rounding to nearest-even is monotone. *)
Lemma rne_mono n m1 m2 : m1 <= m2 -> rne n m1 <= rne n m2.
Proof.
  intros Hm. unfold rne.
  destruct (Z.leb_spec n 0) as [Hn|Hn]; [lia|].
  pose proof (pow2_pos n ltac:(lia)) as Hg.
  pose proof (pow2_half n Hn) as Hh.
  pose proof (Z.div_le_mono m1 m2 (2 ^ n) Hg Hm) as Hq.
  pose proof (Z.div_mod m1 (2 ^ n) ltac:(lia)) as E1.
  pose proof (Z.div_mod m2 (2 ^ n) ltac:(lia)) as E2.
  pose proof (Z.mod_pos_bound m1 (2 ^ n) Hg) as B1.
  pose proof (Z.mod_pos_bound m2 (2 ^ n) Hg) as B2.
  set (q1 := m1 / 2 ^ n) in *. set (q2 := m2 / 2 ^ n) in *.
  set (r1 := m1 mod 2 ^ n) in *. set (r2 := m2 mod 2 ^ n) in *.
  set (h := 2 ^ (n - 1)) in *. set (g := 2 ^ n) in *.
  destruct (Z.eq_dec q1 q2) as [Heq|Hne].
  - rewrite <- Heq in *.
    assert (r1 <= r2) by nia.
    destruct (Z.compare_spec r1 h), (Z.compare_spec r2 h);
      destruct (Z.even q1); lia.
  - destruct (Z.compare_spec r1 h), (Z.compare_spec r2 h);
      destruct (Z.even q1), (Z.even q2); lia.
Qed.

Lemma rne_exact n q : 0 <= n -> rne n (q * 2 ^ n) = q.
Proof.
  intros Hn. unfold rne.
  destruct (Z.leb_spec n 0) as [H0|H0].
  - assert (n = 0) by lia. subst. simpl. lia.
  - pose proof (pow2_pos n ltac:(lia)).
    pose proof (pow2_pos (n - 1) ltac:(lia)).
    rewrite Z.mod_mul, Z.div_mul by lia.
    destruct (Z.compare_spec 0 (2 ^ (n - 1))); lia.
Qed.

(** Trailing zero bits do not change the rounding. *)
Lemma rne_scale n k m : 0 <= n -> 0 <= k -> rne (n + k) (m * 2 ^ k) = rne n m.
Proof.
  intros Hn Hk.
  destruct (Z.eq_dec n 0) as [->|Hn0].
  { simpl. rewrite rne_exact by lia. reflexivity. }
  unfold rne.
  destruct (Z.leb_spec (n + k) 0); [lia|]. destruct (Z.leb_spec n 0); [lia|].
  pose proof (pow2_pos k Hk). pose proof (pow2_pos n Hn).
  pose proof (pow2_pos (n - 1) ltac:(lia)).
  rewrite Z.pow_add_r by lia.
  rewrite Z.div_mul_cancel_r by lia.
  rewrite Z.mul_mod_distr_r by lia.
  replace (n + k - 1) with ((n - 1) + k) by lia.
  rewrite Z.pow_add_r by lia.
  destruct (Z.compare_spec (m mod 2 ^ n * 2 ^ k) (2 ^ (n - 1) * 2 ^ k)),
    (Z.compare_spec (m mod 2 ^ n) (2 ^ (n - 1))); try reflexivity; nia.
Qed.

(** ** Rounding to the binary64 grid is monotone *)

Lemma K_val : K = 2200.
Proof. reflexivity. Qed.

Global Opaque K.

Lemma grid_pos v : 0 < grid v.
Proof. unfold grid. pose proof K_val. lia. Qed.

Lemma grid_mono v1 v2 : v1 <= v2 -> grid v1 <= grid v2.
Proof.
  intros. unfold grid. pose proof (Z.log2_le_mono v1 v2 ltac:(lia)). lia.
Qed.

Lemma pow2_split a b : 0 <= b <= a -> 2 ^ a = 2 ^ (a - b) * 2 ^ b.
Proof.
  intros. rewrite <- Z.pow_add_r by lia. f_equal. lia.
Qed.

Lemma RND_le_pow v t : v <= 2 ^ t -> grid v <= t -> RND v <= 2 ^ t.
Proof.
  intros Hv Hg. unfold RND. pose proof (grid_pos v).
  pose proof (rne_mono (grid v) _ _ Hv) as Hm.
  rewrite (pow2_split t (grid v)) in Hm at 1 by lia.
  rewrite rne_exact in Hm by lia.
  rewrite (pow2_split t (grid v)) by lia.
  pose proof (pow2_pos (grid v) ltac:(lia)). nia.
Qed.

Lemma RND_ge_pow v t : 2 ^ t <= v -> grid v <= t -> 2 ^ t <= RND v.
Proof.
  intros Hv Hg. unfold RND. pose proof (grid_pos v).
  pose proof (rne_mono (grid v) _ _ Hv) as Hm.
  rewrite (pow2_split t (grid v)) in Hm at 1 by lia.
  rewrite rne_exact in Hm by lia.
  rewrite (pow2_split t (grid v)) by lia.
  pose proof (pow2_pos (grid v) ltac:(lia)). nia.
Qed.

(** Rounding to the grid is monotone.  On one grid this is [rne_mono];
    across two grids a power of two lies between the values, and it is on
    both grids. *)
Lemma RND_mono v1 v2 : 0 < v1 -> v1 <= v2 -> RND v1 <= RND v2.
Proof.
  intros H1 H12.
  pose proof (grid_mono _ _ H12) as Hg.
  destruct (Z.eq_dec (grid v1) (grid v2)) as [Heq|Hne].
  - unfold RND. rewrite <- Heq.
    pose proof (rne_mono (grid v1) _ _ H12).
    pose proof (pow2_pos (grid v1) ltac:(pose proof (grid_pos v1); lia)). nia.
  - assert (Hlt : grid v1 < grid v2) by lia.
    pose proof (Z.log2_spec v1 H1) as [_ S1].
    pose proof (Z.log2_spec v2 ltac:(lia)) as [S2 _].
    pose proof (Z.log2_nonneg v1). pose proof (Z.log2_nonneg v2).
    assert (Hl : Z.log2 v1 + 1 <= Z.log2 v2) by (unfold grid in *; lia).
    pose proof (Z.pow_le_mono_r 2 _ _ ltac:(lia) Hl) as Hp.
    replace (Z.succ (Z.log2 v1)) with (Z.log2 v1 + 1) in S1 by lia.
    transitivity (2 ^ Z.log2 v2).
    + apply RND_le_pow; [lia|]. unfold grid in *. lia.
    + apply RND_ge_pow; [lia|]. unfold grid in *. lia.
Qed.

Lemma RND_nonneg v : 0 <= v -> 0 <= RND v.
Proof.
  intros. unfold RND. pose proof (grid_pos v).
  pose proof (rne_bounds (grid v) v ltac:(lia)).
  pose proof (pow2_pos (grid v) ltac:(lia)).
  pose proof (Z.div_pos v (2 ^ grid v) ltac:(lia) ltac:(lia)). nia.
Qed.

(** ** What [shr] and [round_nearest_even] compute *)

Lemma iter_pos_nat {A} (f : A -> A) p x :
  SpecFloat.iter_pos f p x = Nat.iter (Pos.to_nat p) f x.
Proof.
  revert x. induction p as [p IH|p IH|]; intros x; cbn [SpecFloat.iter_pos].
  - rewrite !IH, Pos2Nat.inj_xI.
    replace (S (2 * Pos.to_nat p))%nat with (Pos.to_nat p + S (Pos.to_nat p))%nat by lia.
    rewrite Nat.iter_add, Nat.iter_succ_r. reflexivity.
  - rewrite !IH, Pos2Nat.inj_xO.
    replace (2 * Pos.to_nat p)%nat with (Pos.to_nat p + Pos.to_nat p)%nat by lia.
    rewrite Nat.iter_add. reflexivity.
  - reflexivity.
Qed.

Lemma shr_1_spec m r s : 0 <= m ->
  shr_1 (Build_shr_record m r s) = Build_shr_record (m / 2) (Z.odd m) (r || s).
Proof.
  intros. rewrite <- Z.div2_div.
  destruct m as [|[p|p|]|]; try reflexivity; lia.
Qed.

Lemma nat_iter_shr_1 M j : 0 <= M ->
  Nat.iter (S j) shr_1 (Build_shr_record M false false) =
  Build_shr_record (M / 2 ^ (Z.of_nat j + 1)) (Z.odd (M / 2 ^ Z.of_nat j))
    (nz (M mod 2 ^ Z.of_nat j)).
Proof.
  intros HM. induction j as [|j IH].
  - cbn [Nat.iter nat_rect]. rewrite shr_1_spec by lia. cbn [Z.of_nat Z.add].
    rewrite Z.pow_0_r, Z.div_1_r, Z.mod_1_r. reflexivity.
  - change (Nat.iter (S (S j)) shr_1 ?x) with (shr_1 (Nat.iter (S j) shr_1 x)).
    rewrite IH.
    pose proof (pow2_pos (Z.of_nat j) ltac:(lia)) as Hp.
    rewrite shr_1_spec by (apply Z.div_pos; [lia|apply pow2_pos; lia]).
    replace (Z.of_nat (S j)) with (Z.of_nat j + 1) by lia.
    f_equal.
    + rewrite Z.div_div by (try apply pow2_pos; lia).
      f_equal. rewrite (Z.pow_add_r 2 (Z.of_nat j + 1) 1) by lia. reflexivity.
    + rewrite (Z.pow_add_r 2 (Z.of_nat j) 1) by lia.
      change (2 ^ 1) with 2.
      rewrite Z.rem_mul_r by lia.
      rewrite Zmod_odd.
      pose proof (Z.mod_pos_bound M (2 ^ Z.of_nat j) Hp).
      unfold nz.
      destruct (Z.odd (M / 2 ^ Z.of_nat j));
        destruct (Z.eqb_spec (M mod 2 ^ Z.of_nat j) 0);
        simpl; symmetry; try (apply negb_true_iff; apply Z.eqb_neq; nia).
      apply negb_false_iff. apply Z.eqb_eq. nia.
Qed.

(** Shifting right by [n] keeps the quotient by [2^n], the last bit
    shifted out and whether a lower bit was set. *)
Lemma shr_spec M e n : 0 <= M -> 0 < n ->
  shr (Build_shr_record M false false) e n =
  (Build_shr_record (M / 2 ^ n) (Z.odd (M / 2 ^ (n - 1))) (nz (M mod 2 ^ (n - 1))),
   e + n).
Proof.
  intros HM Hn. destruct n as [|p|p]; try lia.
  unfold shr. rewrite iter_pos_nat.
  destruct (Pos.to_nat p) as [|j] eqn:Ej; [lia|].
  rewrite nat_iter_shr_1 by lia.
  assert (Z.of_nat j = Z.pos p - 1) as -> by lia.
  replace (Z.pos p - 1 + 1) with (Z.pos p) by lia. reflexivity.
Qed.

(** After that shift, [round_nearest_even] is [rne]. *)
Lemma round_shr M n : 0 <= M -> 0 < n ->
  round_nearest_even (M / 2 ^ n)
    (loc_of_shr_record
       (Build_shr_record (M / 2 ^ n) (Z.odd (M / 2 ^ (n - 1))) (nz (M mod 2 ^ (n - 1)))))
  = rne n M.
Proof.
  intros HM Hn. unfold rne.
  destruct (Z.leb_spec n 0); [lia|].
  pose proof (pow2_pos (n - 1) ltac:(lia)) as Hh.
  assert (Hmod : M mod 2 ^ n =
                 M mod 2 ^ (n - 1) + 2 ^ (n - 1) * ((M / 2 ^ (n - 1)) mod 2)).
  { rewrite <- Z.rem_mul_r by lia. f_equal. rewrite (pow2_half n Hn). lia. }
  rewrite Hmod, Zmod_odd.
  pose proof (Z.mod_pos_bound M (2 ^ (n - 1)) Hh).
  unfold nz.
  destruct (Z.odd (M / 2 ^ (n - 1)));
    destruct (Z.eqb_spec (M mod 2 ^ (n - 1)) 0); simpl.
  - destruct (Z.compare_spec (M mod 2 ^ (n - 1) + 2 ^ (n - 1) * 1) (2 ^ (n - 1)));
      first [reflexivity | lia].
  - destruct (Z.compare_spec (M mod 2 ^ (n - 1) + 2 ^ (n - 1) * 1) (2 ^ (n - 1)));
      first [reflexivity | lia].
  - destruct (Z.compare_spec (M mod 2 ^ (n - 1) + 2 ^ (n - 1) * 0) (2 ^ (n - 1)));
      first [reflexivity | lia].
  - destruct (Z.compare_spec (M mod 2 ^ (n - 1) + 2 ^ (n - 1) * 0) (2 ^ (n - 1)));
      first [reflexivity | lia].
Qed.

(** ** What [binary_round_aux] returns *)

Lemma fexp_eq x : fexp prec emax x = Z.max (x - 53) (-1074).
Proof. reflexivity. Qed.

Lemma digits2_pos_size p : digits2_pos p = Pos.size p.
Proof. induction p; simpl; congruence. Qed.

Lemma digits_log2 m : Z.pos (digits2_pos m) = Z.log2 (Z.pos m) + 1.
Proof.
  rewrite digits2_pos_size.
  destruct m; simpl; rewrite ?Pos.add_1_r; try reflexivity; lia.
Qed.

Lemma Zdigits2_log2 q : 0 < q -> Zdigits2 q = Z.log2 q + 1.
Proof. destruct q; try lia. intros _. apply digits_log2. Qed.

Lemma log2_bounds q : 0 < q -> 2 ^ Z.log2 q <= q < 2 ^ (Z.log2 q + 1).
Proof. intros H. apply (Z.log2_spec q H). Qed.

Lemma log2_lt_pow q k : 0 < q -> 0 <= k -> q < 2 ^ k -> Z.log2 q + 1 <= k.
Proof.
  intros Hq Hk H. pose proof (Z.log2_lt_pow2 q k Hq). lia.
Qed.

Lemma log2_ge_pow q k : 0 <= k -> 2 ^ k <= q -> k <= Z.log2 q.
Proof.
  intros Hk H. pose proof (pow2_pos k Hk).
  apply Z.log2_le_pow2; lia.
Qed.

Lemma shr_nonpos mrs e n : n <= 0 -> shr mrs e n = (mrs, e).
Proof. destruct n; try reflexivity. lia. Qed.

Lemma binary_round_aux_unfold s m e :
  let E := fexp prec emax (Z.pos (digits2_pos m) + e) in
  e <= E ->
  binary_round_aux prec emax s (Z.pos m) e loc_Exact =
  let '(mrs, e2) := shr_fexp prec emax (rne (E - e) (Z.pos m)) E loc_Exact in
  match shr_m mrs with
  | Z0 => S754_zero s
  | Z.pos m' => if e2 <=? 971 then S754_finite s m' e2 else S754_infinity s
  | Z.neg _ => S754_nan
  end.
Proof.
  intros E HE. unfold binary_round_aux.
  assert (Hfirst :
    exists mrs', shr_fexp prec emax (Z.pos m) e loc_Exact = (mrs', E) /\
      round_nearest_even (shr_m mrs') (loc_of_shr_record mrs') = rne (E - e) (Z.pos m)).
  { unfold shr_fexp. cbn [Zdigits2 shr_record_of_loc]. fold E.
    destruct (Z.eq_dec (E - e) 0) as [H0|H0].
    - rewrite H0. cbn [shr]. eexists; split; [f_equal; lia|]. reflexivity.
    - rewrite shr_spec by lia. eexists; split; [f_equal; lia|].
      cbn [shr_m]. apply round_shr; lia. }
  destruct Hfirst as (mrs' & -> & ->). reflexivity.
Qed.

Lemma grid_scaled m e : 0 <= e + K ->
  grid (Z.pos m * 2 ^ (e + K)) = fexp prec emax (Z.pos (digits2_pos m) + e) + K.
Proof.
  intros He. unfold grid. rewrite fexp_eq, digits_log2.
  rewrite Z.log2_mul_pow2 by lia. lia.
Qed.

Lemma RND_scaled m e :
  let E := fexp prec emax (Z.pos (digits2_pos m) + e) in
  0 <= e + K -> e <= E ->
  RND (Z.pos m * 2 ^ (e + K)) = rne (E - e) (Z.pos m) * 2 ^ (E + K).
Proof.
  intros E He HE. unfold RND. rewrite grid_scaled by lia. fold E.
  replace (E + K) with ((E - e) + (e + K)) at 1 by lia.
  rewrite rne_scale by lia. reflexivity.
Qed.

Lemma rounded_bounds m e :
  let E := fexp prec emax (Z.pos (digits2_pos m) + e) in
  let q := rne (E - e) (Z.pos m) in
  e <= E ->
  0 <= q <= 2 ^ 53 /\ (-1074 < E -> 2 ^ 52 <= q).
Proof.
  intros E q HE. subst q.
  assert (HEeq : E = Z.max (Z.log2 (Z.pos m) + 1 + e - 53) (-1074)).
  { unfold E. rewrite fexp_eq, digits_log2. reflexivity. }
  pose proof (log2_bounds (Z.pos m) ltac:(lia)) as [Hlo Hhi].
  pose proof (Z.log2_nonneg (Z.pos m)) as Hl.
  set (n := E - e) in *. set (l := Z.log2 (Z.pos m)) in *.
  assert (Hn : 0 <= n) by lia.
  pose proof (pow2_pos n Hn) as Hpn.
  repeat split.
  - rewrite <- (rne_exact n 0 Hn). apply rne_mono. lia.
  - rewrite <- (rne_exact n (2 ^ 53) Hn). apply rne_mono.
    rewrite <- Z.pow_add_r by lia.
    pose proof (Z.pow_le_mono_r 2 (l + 1) (53 + n) ltac:(lia) ltac:(lia)). lia.
  - intros Hnorm. rewrite <- (rne_exact n (2 ^ 52) Hn). apply rne_mono.
    rewrite <- Z.pow_add_r by lia.
    replace (52 + n) with l by lia. lia.
Qed.

Lemma second_shr q E : -1074 <= E -> 0 <= q <= 2 ^ 53 ->
  shr_fexp prec emax q E loc_Exact =
  if q =? 2 ^ 53 then (Build_shr_record (2 ^ 52) false false, E + 1)
  else (Build_shr_record q false false, E).
Proof.
  intros HE Hq. unfold shr_fexp. cbn [shr_record_of_loc]. rewrite fexp_eq.
  destruct (Z.eqb_spec q (2 ^ 53)) as [->|Hne].
  - replace (Z.max (Zdigits2 (2 ^ 53) + E - 53) (-1074) - E) with 1
      by (change (Zdigits2 (2 ^ 53)) with 54; lia).
    reflexivity.
  - apply shr_nonpos.
    destruct (Z.eq_dec q 0) as [->|Hq0]; [simpl; lia|].
    rewrite Zdigits2_log2 by lia.
    pose proof (log2_lt_pow q 53 ltac:(lia) ltac:(lia) ltac:(lia)). lia.
Qed.

(** What [binary_round_aux] returns on an exact mantissa whose exponent is
    at most the canonical one: the value [RND] gives, as a valid float of
    the same sign, or the infinity when it overflows; never NaN. *)
Lemma binary_round_aux_cases s m e :
  0 <= e + K ->
  e <= fexp prec emax (Z.pos (digits2_pos m) + e) ->
  let R := RND (Z.pos m * 2 ^ (e + K)) in
  match binary_round_aux prec emax s (Z.pos m) e loc_Exact with
  | S754_zero s' => s' = s /\ R = 0
  | S754_finite s' m' e' =>
      s' = s /\ bounded prec emax m' e' = true /\
      Z.pos m' * 2 ^ (e' + K) = R /\ R < overflow_threshold
  | S754_infinity s' => s' = s /\ overflow_threshold <= R
  | S754_nan => False
  end.
Proof.
  intros He HE R. subst R. rewrite RND_scaled by lia.
  rewrite binary_round_aux_unfold by lia.
  pose proof (rounded_bounds m e HE) as [Hq Hnorm].
  set (E := fexp prec emax (Z.pos (digits2_pos m) + e)) in *.
  set (q := rne (E - e) (Z.pos m)) in *.
  assert (HE1 : -1074 <= E) by (unfold E; rewrite fexp_eq; lia).
  pose proof K_val as HK.
  rewrite second_shr by lia. unfold overflow_threshold.
  destruct (Z.eqb_spec q (2 ^ 53)) as [Hq53|Hq53].
  - cbn [shr_m]. change (2 ^ 52) with (Z.pos (2 ^ 52)%positive).
    cbv iota beta.
    destruct (Z.leb_spec (E + 1) 971) as [Hov|Hov].
    + split; [reflexivity|]. split.
      { unfold bounded, canonical_mantissa. rewrite fexp_eq.
        change (Z.pos (digits2_pos (2 ^ 52))) with 53.
        change (emax - prec) with 971.
        apply andb_true_intro; split; [apply Z.eqb_eq|apply Z.leb_le]; lia. }
      rewrite Hq53.
      change (Z.pos (2 ^ 52)%positive) with (2 ^ 52).
      rewrite <- !Z.pow_add_r by lia. split; [f_equal; lia|].
      apply Z.pow_lt_mono_r; lia.
    + split; [reflexivity|]. rewrite Hq53. rewrite <- Z.pow_add_r by lia.
      apply Z.pow_le_mono_r; lia.
  - cbn [shr_m]. destruct q as [|p|p] eqn:Eq; try lia.
    + split; reflexivity.
    + assert (Hl : Z.log2 (Z.pos p) + 1 <= 53)
        by (apply log2_lt_pow; lia).
      destruct (Z.leb_spec E 971) as [Hov|Hov].
      * split; [reflexivity|]. split.
        { unfold bounded, canonical_mantissa. rewrite fexp_eq, digits_log2.
          change (emax - prec) with 971.
          apply andb_true_intro; split; [apply Z.eqb_eq|apply Z.leb_le]; [|lia].
          destruct (Z.eq_dec E (-1074)) as [HEm|HEm]; [lia|].
          pose proof (log2_ge_pow (Z.pos p) 52 ltac:(lia) ltac:(lia)). lia. }
        split; [reflexivity|].
        pose proof (pow2_pos (E + K) ltac:(lia)).
        replace (K + 1024) with (53 + (971 + K)) by lia.
        rewrite (Z.pow_add_r 2 53 (971 + K)) by lia.
        pose proof (Z.pow_le_mono_r 2 (E + K) (971 + K) ltac:(lia) ltac:(lia)).
        nia.
      * split; [reflexivity|].
        replace (K + 1024) with (52 + (972 + K)) by lia.
        rewrite (Z.pow_add_r 2 52 (972 + K)) by lia.
        pose proof (Z.pow_le_mono_r 2 (972 + K) (E + K) ltac:(lia) ltac:(lia)).
        pose proof (pow2_pos (972 + K) ltac:(lia)).
        specialize (Hnorm ltac:(lia)). nia.
Qed.

(** ** Keys decide the order *)

Lemma threshold_lt_INF : 0 < overflow_threshold < INF.
Proof.
  unfold overflow_threshold, INF. pose proof K_val. split.
  - apply pow2_pos. lia.
  - apply Z.pow_lt_mono_r; lia.
Qed.

Lemma bounded_facts m e : bounded prec emax m e = true ->
  -1074 <= e <= 971 /\ Z.pos m < 2 ^ 53 /\ (-1074 < e -> 2 ^ 52 <= Z.pos m).
Proof.
  unfold bounded, canonical_mantissa. rewrite fexp_eq, digits_log2.
  change (emax - prec) with 971.
  intros H. apply andb_prop in H as [Hc He].
  apply Z.eqb_eq in Hc. apply Z.leb_le in He.
  pose proof (log2_bounds (Z.pos m) ltac:(lia)) as [Hlo Hhi].
  pose proof (Z.log2_nonneg (Z.pos m)).
  repeat split; try lia.
  - pose proof (Z.pow_le_mono_r 2 (Z.log2 (Z.pos m) + 1) 53 ltac:(lia) ltac:(lia)). lia.
  - intros Hn. replace 52 with (Z.log2 (Z.pos m)) by lia. lia.
Qed.

Lemma finite_val_bounds m e : bounded prec emax m e = true ->
  0 < Z.pos m * 2 ^ (e + K) < overflow_threshold.
Proof.
  intros H. apply bounded_facts in H as (He & Hm & _).
  pose proof K_val. pose proof (pow2_pos (e + K) ltac:(lia)).
  split; [nia|]. unfold overflow_threshold.
  replace (K + 1024) with (53 + (971 + K)) by lia.
  rewrite (Z.pow_add_r 2 53 (971 + K)) by lia.
  pose proof (Z.pow_le_mono_r 2 (e + K) (971 + K) ltac:(lia) ltac:(lia)).
  nia.
Qed.

Lemma finite_val_cmp m1 e1 m2 e2 :
  bounded prec emax m1 e1 = true -> bounded prec emax m2 e2 = true ->
  (Z.pos m1 * 2 ^ (e1 + K) ?= Z.pos m2 * 2 ^ (e2 + K)) =
  match e1 ?= e2 with
  | Lt => Lt
  | Gt => Gt
  | Eq => Pos.compare_cont Eq m1 m2
  end.
Proof.
  intros H1 H2.
  apply bounded_facts in H1 as (He1 & Hm1 & Hn1).
  apply bounded_facts in H2 as (He2 & Hm2 & Hn2).
  pose proof K_val.
  assert (Hstep : forall ma ea mb eb, -1074 <= ea -> ea < eb ->
            Z.pos ma < 2 ^ 53 -> 2 ^ 52 <= Z.pos mb ->
            Z.pos ma * 2 ^ (ea + K) < Z.pos mb * 2 ^ (eb + K)).
  { intros ma ea mb eb Hea Hlt Hma Hmb.
    pose proof (pow2_pos (ea + K) ltac:(lia)).
    pose proof (Z.pow_le_mono_r 2 (ea + 1 + K) (eb + K) ltac:(lia) ltac:(lia)) as Hp.
    replace (ea + 1 + K) with (1 + (ea + K)) in Hp by lia.
    rewrite (Z.pow_add_r 2 1 (ea + K)) in Hp by lia.
    change (2 ^ 1) with 2 in Hp.
    change (2 ^ 53) with (2 * 2 ^ 52) in Hma. nia. }
  destruct (Z.compare_spec e1 e2) as [Heq|Hlt|Hgt].
  - subst e2. pose proof (pow2_pos (e1 + K) ltac:(lia)).
    change (Pos.compare_cont Eq m1 m2) with (Z.pos m1 ?= Z.pos m2).
    destruct (Z.compare_spec (Z.pos m1) (Z.pos m2)).
    + apply Z.compare_eq_iff. congruence.
    + apply Z.compare_lt_iff. nia.
    + apply Z.compare_gt_iff. nia.
  - apply Z.compare_lt_iff. apply Hstep; lia.
  - apply Z.compare_gt_iff. apply Hstep; lia.
Qed.

(** On valid values other than NaN, [SFcompare] compares the keys. *)
Lemma SFcompare_key x y :
  valid_binary x = true -> valid_binary y = true ->
  is_nan_sf x = false -> is_nan_sf y = false ->
  SFcompare x y = Some (key x ?= key y).
Proof.
  pose proof threshold_lt_INF as HT.
  intros Vx Vy Nx Ny.
  destruct x as [sx|sx| |sx mx ex], y as [sy|sy| |sy my ey];
    try discriminate; cbn [SFcompare key valid_binary] in *;
    try pose proof (finite_val_bounds _ _ Vx) as Bx;
    try pose proof (finite_val_bounds _ _ Vy) as By.
  all: try solve
    [ repeat match goal with s : bool |- _ => destruct s end;
      cbn [sgn]; f_equal; symmetry;
      first [apply Z.compare_eq_iff; lia|apply Z.compare_gt_iff; lia
            |apply Z.compare_lt_iff; lia] ].
  pose proof (finite_val_cmp _ _ _ _ Vx Vy) as Hc.
  pose proof (finite_val_cmp _ _ _ _ Vy Vx) as Hc'.
  destruct sx, sy; cbn [sgn]; f_equal.
    + rewrite Z.compare_opp, Hc'.
      rewrite (Z.compare_antisym ey ex).
      destruct (ey ?= ex); cbn; try reflexivity.
      rewrite Pos.compare_cont_antisym. reflexivity.
    + symmetry. apply Z.compare_lt_iff. lia.
    + symmetry. apply Z.compare_gt_iff. lia.
    + rewrite Hc. reflexivity.
Qed.

(** ** Signed rounding *)

Lemma RND_0 : RND 0 = 0.
Proof.
  pose proof (grid_pos 0).
  unfold RND. rewrite (rne_exact (grid 0) 0 ltac:(lia) : rne (grid 0) 0 = 0).
  reflexivity.
Qed.

Lemma sat_mono a b : a <= b -> sat a <= sat b.
Proof.
  pose proof threshold_lt_INF. intros. unfold sat.
  destruct (Z.ltb_spec a overflow_threshold), (Z.ltb_spec b overflow_threshold); lia.
Qed.

Lemma sat_bounds a : 0 <= a -> 0 <= sat a <= INF.
Proof.
  pose proof threshold_lt_INF. intros. unfold sat.
  destruct (Z.ltb_spec a overflow_threshold); lia.
Qed.

Lemma SRND_bounds w : - INF <= SRND w <= INF.
Proof.
  pose proof threshold_lt_INF.
  unfold SRND. destruct (Z.ltb_spec w 0).
  - pose proof (sat_bounds (RND (- w)) (RND_nonneg (- w) ltac:(lia))). lia.
  - pose proof (sat_bounds (RND w) (RND_nonneg w ltac:(lia))). lia.
Qed.

Lemma SRND_mono w1 w2 : w1 <= w2 -> SRND w1 <= SRND w2.
Proof.
  intros H. unfold SRND.
  destruct (Z.ltb_spec w1 0), (Z.ltb_spec w2 0); try lia.
  - pose proof (sat_mono _ _ (RND_mono (- w2) (- w1) ltac:(lia) ltac:(lia))). lia.
  - pose proof (sat_bounds (RND (- w1)) (RND_nonneg (- w1) ltac:(lia))).
    pose proof (sat_bounds (RND w2) (RND_nonneg w2 ltac:(lia))). lia.
  - destruct (Z.eq_dec w1 0) as [->|].
    + rewrite RND_0. apply sat_mono. apply RND_nonneg. lia.
    + apply sat_mono. apply RND_mono; lia.
Qed.

Lemma SRND_sgn s w : 0 < w -> SRND (sgn s w) = sgn s (sat (RND w)).
Proof.
  intros. unfold SRND, sgn. destruct s.
  - destruct (Z.ltb_spec (- w) 0); [|lia]. rewrite Z.opp_involutive. reflexivity.
  - destruct (Z.ltb_spec w 0); [lia|]. reflexivity.
Qed.

Lemma binary_round_aux_rounded s m e :
  0 <= e + K ->
  e <= fexp prec emax (Z.pos (digits2_pos m) + e) ->
  rounded s (Z.pos m * 2 ^ (e + K)) (binary_round_aux prec emax s (Z.pos m) e loc_Exact).
Proof.
  intros He HE. pose proof (binary_round_aux_cases s m e He HE) as H.
  pose proof threshold_lt_INF as HT. cbv zeta in H.
  unfold rounded.
  destruct (binary_round_aux prec emax s (Z.pos m) e loc_Exact) as [s'|s'| |s' m' e'];
    cbn [valid_binary is_nan_sf key].
  - destruct H as [-> HR]. rewrite HR. unfold sat.
    destruct (Z.ltb_spec 0 overflow_threshold); [|lia].
    repeat split; eauto. destruct s; reflexivity.
  - destruct H as [-> HR]. unfold sat.
    destruct (Z.ltb_spec (RND (Z.pos m * 2 ^ (e + K))) overflow_threshold); [lia|].
    repeat split; try lia. intros (s' & Hs). discriminate.
  - contradiction.
  - destruct H as (-> & Hb & Hv & HR). unfold sat.
    destruct (Z.ltb_spec (RND (Z.pos m * 2 ^ (e + K))) overflow_threshold); [|lia].
    pose proof (finite_val_bounds _ _ Hb).
    repeat split; try congruence; try lia. intros (s' & Hs). discriminate.
Qed.

Lemma pos_iter_xO m d : Z.pos (Pos.iter xO m d) = Z.pos m * 2 ^ Z.pos d.
Proof.
  induction d using Pos.peano_ind.
  - cbn [Pos.iter]. rewrite Pos2Z.inj_xO. change (2 ^ 1) with 2. lia.
  - rewrite Pos.iter_succ, Pos2Z.inj_xO, IHd, Pos2Z.inj_succ.
    rewrite Z.pow_succ_r by lia. lia.
Qed.

Lemma shl_align_spec mx ex ex' :
  let '(mz, ez) := shl_align mx ex ex' in
  ez = Z.min ex ex' /\ Z.pos mz = Z.pos mx * 2 ^ (ex - ez).
Proof.
  unfold shl_align. destruct (ex' - ex) as [|d|d] eqn:Hd.
  - split; [lia|]. replace (ex - ex) with 0 by lia. lia.
  - split; [lia|]. replace (ex - ex) with 0 by lia. lia.
  - split; [lia|]. rewrite pos_iter_xO. f_equal. f_equal. lia.
Qed.

Lemma binary_round_rounded s m e :
  0 <= e + K ->
  rounded s (Z.pos m * 2 ^ (e + K)) (binary_round prec emax s m e).
Proof.
  intros He. unfold binary_round.
  pose proof (shl_align_spec m e (fexp prec emax (Z.pos (digits2_pos m) + e))) as H.
  destruct (shl_align m e _) as [mz ez]. destruct H as [Hez Hmz].
  pose proof K_val as HK.
  assert (Hf : -1074 <= fexp prec emax (Z.pos (digits2_pos m) + e))
    by (rewrite fexp_eq; lia).
  assert (Hval : Z.pos mz * 2 ^ (ez + K) = Z.pos m * 2 ^ (e + K)).
  { rewrite Hmz, <- Z.mul_assoc, <- Z.pow_add_r by lia. do 2 f_equal. lia. }
  rewrite <- Hval. apply binary_round_aux_rounded; [lia|].
  rewrite fexp_eq, digits_log2, Hmz, Z.log2_mul_pow2 by lia.
  rewrite fexp_eq, digits_log2 in Hez. lia.
Qed.

(** ** Keys of sums and products *)

Lemma sat_0 : sat 0 = 0.
Proof.
  pose proof threshold_lt_INF. unfold sat.
  destruct (Z.ltb_spec 0 overflow_threshold); lia.
Qed.

Lemma SRND_0 : SRND 0 = 0.
Proof. unfold SRND. cbn. rewrite RND_0. apply sat_0. Qed.

Lemma RND_representable m e : bounded prec emax m e = true ->
  sat (RND (Z.pos m * 2 ^ (e + K))) = Z.pos m * 2 ^ (e + K).
Proof.
  intros Hb. pose proof (finite_val_bounds _ _ Hb) as Hv.
  pose proof (bounded_facts _ _ Hb) as (He & _ & _). pose proof K_val.
  assert (HE : fexp prec emax (Z.pos (digits2_pos m) + e) = e).
  { unfold bounded, canonical_mantissa in Hb.
    apply andb_prop in Hb as [Hc _]. apply Z.eqb_eq in Hc. exact Hc. }
  rewrite RND_scaled by lia. rewrite HE, Z.sub_diag.
  unfold rne. cbn [Z.leb Z.compare]. unfold sat.
  destruct (Z.ltb_spec (Z.pos m * 2 ^ (e + K)) overflow_threshold); lia.
Qed.

Lemma SRND_key x : valid_binary x = true -> is_finite_sf x = true ->
  SRND (key x) = key x.
Proof.
  intros V F. destruct x as [s|s| |s m e]; try discriminate; cbn [key].
  - apply SRND_0.
  - pose proof (finite_val_bounds _ _ V). rewrite SRND_sgn by lia.
    rewrite RND_representable by exact V. reflexivity.
Qed.

Lemma key_finite_bounds x : valid_binary x = true -> is_finite_sf x = true ->
  - overflow_threshold < key x < overflow_threshold.
Proof.
  pose proof threshold_lt_INF.
  intros V F. destruct x as [s|s| |s m e]; try discriminate; cbn [key].
  - lia.
  - pose proof (finite_val_bounds _ _ V). destruct s; cbn [sgn]; lia.
Qed.

Lemma RND_pos w : 2 ^ (K - 1074) <= w -> 0 < RND w.
Proof.
  intros Hw. pose proof K_val.
  pose proof (pow2_pos (K - 1074) ltac:(lia)).
  pose proof (log2_ge_pow w (K - 1074) ltac:(lia) Hw).
  pose proof (log2_bounds w ltac:(lia)) as [Hl _].
  pose proof (RND_ge_pow w (Z.log2 w) Hl ltac:(unfold grid; lia)).
  pose proof (pow2_pos (Z.log2 w) ltac:(lia)). lia.
Qed.

Lemma binary_normalize_key z e szero : -1074 <= e ->
  let r := binary_normalize prec emax z e szero in
  valid_binary r = true /\ is_nan_sf r = false /\
  key r = SRND (z * 2 ^ (e + K)) /\
  (r = S754_zero true -> z = 0 /\ szero = true).
Proof.
  intros He r. subst r. pose proof K_val as HK.
  pose proof (pow2_pos (e + K) ltac:(lia)) as Hp.
  assert (Hpos : forall m, 0 < RND (Z.pos m * 2 ^ (e + K))).
  { intros m. apply RND_pos.
    pose proof (Z.pow_le_mono_r 2 (K - 1074) (e + K) ltac:(lia) ltac:(lia)).
    nia. }
  destruct z as [|m|m]; cbn [binary_normalize].
  - rewrite Z.mul_0_l, SRND_0. repeat split; try reflexivity. congruence.
  - pose proof (binary_round_rounded false m e ltac:(lia)) as (V & N & Hk & Hs & Hz).
    repeat split; try assumption.
    + rewrite Hk. symmetry. apply (SRND_sgn false). lia.
    + rewrite H in Hs. discriminate.
    + rewrite H in Hs. discriminate.
  - pose proof (binary_round_rounded true m e ltac:(lia)) as (V & N & Hk & Hs & Hz).
    assert (Hne : binary_round prec emax true m e <> S754_zero true).
    { intros Hr. destruct Hz as [_ Hz]. specialize (Hz (ex_intro _ true Hr)).
      specialize (Hpos m). lia. }
    repeat split; try assumption; try contradiction.
    rewrite Hk. symmetry.
    replace (Z.neg m * 2 ^ (e + K)) with (sgn true (Z.pos m * 2 ^ (e + K)))
      by (cbn [sgn]; lia).
    apply (SRND_sgn true). lia.
Qed.

Lemma sgn_mul s a b : sgn s a * b = sgn s (a * b).
Proof. destruct s; cbn [sgn]; lia. Qed.

(** A sum of finite values is the rounded sum of the keys; it is [-0] only
    when both operands are. *)
Lemma SFadd_finite_key x y :
  valid_binary x = true -> valid_binary y = true ->
  is_finite_sf x = true -> is_finite_sf y = true ->
  let r := SFadd prec emax x y in
  valid_binary r = true /\ is_nan_sf r = false /\
  key r = SRND (key x + key y) /\
  (r = S754_zero true -> x = S754_zero true /\ y = S754_zero true).
Proof.
  intros Vx Vy Fx Fy r. subst r.
  destruct x as [sx|sx| |sx mx ex], y as [sy|sy| |sy my ey]; try discriminate.
  - destruct sx, sy; cbn [SFadd key]; rewrite Z.add_0_l, SRND_0;
      repeat split; try reflexivity; discriminate.
  - cbn [SFadd]. change (key (S754_zero sx)) with 0. rewrite Z.add_0_l.
    rewrite SRND_key by assumption. repeat split; try assumption; discriminate.
  - cbn [SFadd]. change (key (S754_zero sy)) with 0. rewrite Z.add_0_r.
    rewrite SRND_key by assumption. repeat split; try assumption; discriminate.
  - cbn [SFadd]. cbn [valid_binary] in Vx, Vy.
    pose proof (bounded_facts _ _ Vx) as (Hex & _ & _).
    pose proof (bounded_facts _ _ Vy) as (Hey & _ & _).
    pose proof K_val as HK.
    set (ez := Z.min ex ey).
    pose proof (shl_align_spec mx ex ez) as Hx.
    pose proof (shl_align_spec my ey ez) as Hy.
    destruct (shl_align mx ex ez) as [mx' ex'], (shl_align my ey ez) as [my' ey'].
    destruct Hx as [Hx1 Hx2], Hy as [Hy1 Hy2]. cbn [fst].
    pose proof (binary_normalize_key
                  (cond_Zopp sx (Z.pos mx') + cond_Zopp sy (Z.pos my')) ez false
                  ltac:(lia)) as (V & N & Hk & Hz).
    repeat split; try assumption.
    + rewrite Hk. f_equal. cbn [key].
      change cond_Zopp with sgn.
      rewrite Z.mul_add_distr_r, !sgn_mul, Hx2, Hy2.
      rewrite <- !Z.mul_assoc, <- !Z.pow_add_r by lia.
      do 4 f_equal; lia.
    + specialize (Hz H) as [_ ?]. discriminate.
    + specialize (Hz H) as [_ ?]. discriminate.
Qed.

Lemma sgn_sgn_mul sx sy a b : sgn sx a * sgn sy b = sgn (xorb sx sy) (a * b).
Proof. destruct sx, sy; cbn [sgn xorb]; lia. Qed.

Lemma sgn_div s w g : 0 < g -> sgn s (w * g) / g = sgn s w.
Proof.
  intros. destruct s; cbn [sgn].
  - rewrite <- Z.mul_opp_l, Z.div_mul by lia. reflexivity.
  - rewrite Z.div_mul by lia. reflexivity.
Qed.

(** A product of finite values is the rounded product of the keys. *)
Lemma SFmul_finite_key x y :
  valid_binary x = true -> valid_binary y = true ->
  is_finite_sf x = true -> is_finite_sf y = true ->
  let r := SFmul prec emax x y in
  valid_binary r = true /\ is_nan_sf r = false /\
  key r = SRND (key x * key y / 2 ^ K).
Proof.
  intros Vx Vy Fx Fy r. subst r. pose proof K_val as HK.
  destruct x as [sx|sx| |sx mx ex], y as [sy|sy| |sy my ey]; try discriminate;
    cbn [SFmul key valid_binary is_nan_sf];
    rewrite ?Z.mul_0_l, ?Z.mul_0_r, ?(Z.div_0_l (2 ^ K)), ?SRND_0
      by (pose proof (pow2_pos K ltac:(lia)); lia);
    try (repeat split; reflexivity).
  cbn [valid_binary] in Vx, Vy.
  pose proof (bounded_facts _ _ Vx) as (Hex & Hmx & Hnx).
  pose proof (bounded_facts _ _ Vy) as (Hey & Hmy & Hny).
  pose proof (pow2_pos K ltac:(lia)) as HpK.
  assert (Hpre : ex + ey <= fexp prec emax (Z.pos (digits2_pos (mx * my)) + (ex + ey))).
  { rewrite fexp_eq, digits_log2.
    destruct (Z_le_gt_dec (ex + ey) (-1074)); [lia|].
    assert (2 ^ 52 <= Z.pos (mx * my)).
    { rewrite Pos2Z.inj_mul.
      destruct (Z_le_gt_dec ex (-1074)).
      - specialize (Hny ltac:(lia)). nia.
      - specialize (Hnx ltac:(lia)). nia. }
    pose proof (log2_ge_pow (Z.pos (mx * my)) 52 ltac:(lia) ltac:(lia)). lia. }
  pose proof (binary_round_aux_rounded (xorb sx sy) (mx * my) (ex + ey) ltac:(lia) Hpre)
    as (V & N & Hk & _).
  repeat split; try assumption.
  rewrite Hk, sgn_sgn_mul.
  assert (Hv : Z.pos mx * 2 ^ (ex + K) * (Z.pos my * 2 ^ (ey + K)) =
               Z.pos (mx * my) * 2 ^ (ex + ey + K) * 2 ^ K).
  { rewrite Pos2Z.inj_mul.
    rewrite <- (Z.mul_assoc (Z.pos mx * Z.pos my)).
    rewrite <- (Z.pow_add_r 2 (ex + ey + K) K) by lia.
    replace (ex + ey + K + K) with ((ex + K) + (ey + K)) by lia.
    rewrite (Z.pow_add_r 2 (ex + K) (ey + K)) by lia. ring. }
  rewrite Hv, sgn_div by lia.
  rewrite SRND_sgn; [reflexivity|].
  pose proof (pow2_pos (ex + ey + K) ltac:(lia)). nia.
Qed.

Lemma key_abs x : valid_binary x = true -> is_nan_sf x = false ->
  (Z.abs (key x) =? INF) = negb (is_finite_sf x).
Proof.
  pose proof threshold_lt_INF.
  intros V N. destruct x as [s|s| |s m e]; try discriminate; cbn [is_finite_sf negb].
  - apply Z.eqb_neq. cbn [key]. lia.
  - apply Z.eqb_eq. cbn [key]. destruct s; cbn [sgn]; lia.
  - apply Z.eqb_neq. pose proof (key_finite_bounds (S754_finite s m e) V eq_refl).
    lia.
Qed.

Lemma SFmul_pos_key mc ec x :
  bounded prec emax mc ec = true ->
  valid_binary x = true -> is_nan_sf x = false ->
  let c := S754_finite false mc ec in
  let r := SFmul prec emax c x in
  valid_binary r = true /\ is_nan_sf r = false /\ key r = mulkey (key c) (key x).
Proof.
  intros Vc Vx Nx c r. subst r. unfold mulkey. rewrite key_abs by assumption.
  destruct (is_finite_sf x) eqn:Fx; cbn [negb].
  - apply SFmul_finite_key; auto.
  - subst c. destruct x as [s|s| |s m e]; try discriminate.
    cbn [SFmul xorb]. repeat split; reflexivity.
Qed.

Lemma SFadd_key x y :
  valid_binary x = true -> valid_binary y = true ->
  is_nan_sf x = false -> is_nan_sf y = false ->
  let r := SFadd prec emax x y in
  valid_binary r = true /\
  (is_nan_sf r = true <-> Z.abs (key x) = INF /\ key y = - key x) /\
  (is_nan_sf r = false -> key r = addkey (key x) (key y)).
Proof.
  pose proof threshold_lt_INF as HT.
  intros Vx Vy Nx Ny r. subst r. unfold addkey.
  rewrite !key_abs by assumption.
  destruct (is_finite_sf x) eqn:Fx, (is_finite_sf y) eqn:Fy; cbn [negb].
  - pose proof (SFadd_finite_key x y Vx Vy Fx Fy) as (V & N & Hk & _).
    pose proof (key_finite_bounds x Vx Fx).
    repeat split; try assumption; try congruence; try lia.
  - pose proof (key_finite_bounds x Vx Fx).
    destruct x as [sx|sx| |sx mx ex], y as [sy|sy| |sy my ey]; try discriminate;
      cbn [SFadd valid_binary is_nan_sf]; repeat split;
        try reflexivity; try discriminate; lia.
  - pose proof (key_finite_bounds y Vy Fy) as By.
    destruct x as [sx|sx| |sx mx ex], y as [sy|sy| |sy my ey]; try discriminate;
      cbn [SFadd valid_binary is_nan_sf]; repeat split;
        try reflexivity; try discriminate; cbn [key] in *;
          destruct sx; cbn [sgn] in *; lia.
  - destruct x as [sx|sx| |sx mx ex], y as [sy|sy| |sy my ey]; try discriminate.
    destruct sx, sy; cbn [SFadd valid_binary is_nan_sf key sgn]; repeat split;
      try reflexivity; try discriminate; try lia.
Qed.

(** ** Monotonicity on keys *)

Lemma INF_pos : 0 < INF.
Proof. pose proof threshold_lt_INF. lia. Qed.

Lemma mulkey_mono kc k1 k2 : 0 <= kc -> - INF <= k1 -> k1 <= k2 -> k2 <= INF ->
  mulkey kc k1 <= mulkey kc k2.
Proof.
  intros Hc H1 H12 H2. pose proof INF_pos. unfold mulkey.
  pose proof (SRND_bounds (kc * k1 / 2 ^ K)).
  pose proof (SRND_bounds (kc * k2 / 2 ^ K)).
  destruct (Z.eqb_spec (Z.abs k1) INF), (Z.eqb_spec (Z.abs k2) INF); try lia.
  apply SRND_mono. apply Z.div_le_mono; [|nia].
  apply pow2_pos. pose proof K_val. lia.
Qed.

Lemma addkey_bounds k1 k2 : - INF <= k1 <= INF -> - INF <= k2 <= INF ->
  - INF <= addkey k1 k2 <= INF.
Proof.
  intros. unfold addkey. pose proof (SRND_bounds (k1 + k2)).
  destruct (Z.eqb_spec (Z.abs k1) INF), (Z.eqb_spec (Z.abs k2) INF); lia.
Qed.

Lemma addkey_mono k1 k2 k1' k2' :
  - INF <= k1 -> k1 <= k1' -> k1' <= INF ->
  - INF <= k2 -> k2 <= k2' -> k2' <= INF ->
  ~ (Z.abs k1 = INF /\ k2 = - k1) -> ~ (Z.abs k1' = INF /\ k2' = - k1') ->
  addkey k1 k2 <= addkey k1' k2'.
Proof.
  intros. pose proof INF_pos. unfold addkey.
  pose proof (SRND_bounds (k1 + k2)). pose proof (SRND_bounds (k1' + k2')).
  pose proof (SRND_mono (k1 + k2) (k1' + k2') ltac:(lia)).
  destruct (Z.eqb_spec (Z.abs k1) INF), (Z.eqb_spec (Z.abs k2) INF),
    (Z.eqb_spec (Z.abs k1') INF), (Z.eqb_spec (Z.abs k2') INF); lia.
Qed.

(** ** Primitive floats *)

Lemma key_bounds x : valid_binary x = true -> - INF <= key x <= INF.
Proof.
  pose proof threshold_lt_INF.
  intros V. destruct x as [s|s| |s m e]; cbn [key]; try lia.
  - destruct s; cbn [sgn]; lia.
  - pose proof (key_finite_bounds (S754_finite s m e) V eq_refl). cbn [key] in *. lia.
Qed.

Lemma fkey_bounds x : - INF <= fkey x <= INF.
Proof. apply key_bounds, Prim2SF_valid. Qed.

Lemma is_nan_prim x : is_nan x = is_nan_sf (Prim2SF x).
Proof.
  unfold is_nan. rewrite FloatAxioms.eqb_spec. unfold SFeqb.
  destruct (is_nan_sf (Prim2SF x)) eqn:N.
  - destruct (Prim2SF x); try discriminate. reflexivity.
  - rewrite SFcompare_key by (auto using Prim2SF_valid).
    rewrite Z.compare_refl. reflexivity.
Qed.

(** The comparisons of [PrimFloat] through keys. *)
Lemma leb_iff x y :
  (x <=? y)%float = true <->
  is_nan x = false /\ is_nan y = false /\ fkey x <= fkey y.
Proof.
  rewrite FloatAxioms.leb_spec, !is_nan_prim. unfold SFleb, fkey.
  destruct (is_nan_sf (Prim2SF x)) eqn:Nx.
  { destruct (Prim2SF x); try discriminate. cbn. intuition discriminate. }
  destruct (is_nan_sf (Prim2SF y)) eqn:Ny.
  { destruct (Prim2SF y); try discriminate.
    destruct (Prim2SF x); cbn; intuition discriminate. }
  rewrite SFcompare_key by (auto using Prim2SF_valid).
  destruct (Z.compare_spec (key (Prim2SF x)) (key (Prim2SF y)));
    intuition (try discriminate; try lia).
Qed.

Lemma ltb_iff x y :
  (x <? y)%float = true <->
  is_nan x = false /\ is_nan y = false /\ fkey x < fkey y.
Proof.
  rewrite FloatAxioms.ltb_spec, !is_nan_prim. unfold SFltb, fkey.
  destruct (is_nan_sf (Prim2SF x)) eqn:Nx.
  { destruct (Prim2SF x); try discriminate. cbn. intuition discriminate. }
  destruct (is_nan_sf (Prim2SF y)) eqn:Ny.
  { destruct (Prim2SF y); try discriminate.
    destruct (Prim2SF x); cbn; intuition discriminate. }
  rewrite SFcompare_key by (auto using Prim2SF_valid).
  destruct (Z.compare_spec (key (Prim2SF x)) (key (Prim2SF y)));
    intuition (try discriminate; try lia).
Qed.

Lemma pos_finite_key c : pos_finite c -> 0 < fkey c.
Proof.
  unfold pos_finite, fkey. pose proof (Prim2SF_valid c) as V.
  destruct (Prim2SF c) as [| | |[|] m e]; try contradiction. intros _.
  pose proof (finite_val_bounds m e V). cbn [key sgn]. lia.
Qed.

Lemma mul_pos_key c x : pos_finite c -> is_nan x = false ->
  is_nan (c * x) = false /\ fkey (c * x) = mulkey (fkey c) (fkey x).
Proof.
  intros Hc Nx. rewrite is_nan_prim in *. unfold fkey. rewrite FloatAxioms.mul_spec.
  unfold pos_finite in Hc. pose proof (Prim2SF_valid c) as Vc.
  destruct (Prim2SF c) as [| | |[|] mc ec]; try contradiction.
  pose proof (SFmul_pos_key mc ec (Prim2SF x) Vc (Prim2SF_valid x) Nx) as (_ & N & Hk).
  split; assumption.
Qed.

(** Multiplying by a positive finite constant keeps the order. *)
Lemma mul_mono c x y : pos_finite c ->
  (x <=? y)%float = true -> (c * x <=? c * y)%float = true.
Proof.
  intros Hc Hxy. apply leb_iff in Hxy as (Nx & Ny & Hk).
  pose proof (mul_pos_key c x Hc Nx) as [Nx' Kx].
  pose proof (mul_pos_key c y Hc Ny) as [Ny' Ky].
  apply leb_iff. repeat split; try assumption.
  rewrite Kx, Ky. pose proof (pos_finite_key c Hc).
  pose proof (fkey_bounds x). pose proof (fkey_bounds y).
  apply mulkey_mono; lia.
Qed.

Lemma add_key x y : is_nan x = false -> is_nan y = false ->
  (is_nan (x + y) = true <-> Z.abs (fkey x) = INF /\ fkey y = - fkey x) /\
  (is_nan (x + y) = false -> fkey (x + y) = addkey (fkey x) (fkey y)).
Proof.
  intros Nx Ny. rewrite is_nan_prim in *. unfold fkey. rewrite FloatAxioms.add_spec.
  pose proof (SFadd_key (Prim2SF x) (Prim2SF y) (Prim2SF_valid x) (Prim2SF_valid y)
                Nx Ny) as (_ & H1 & H2).
  split; assumption.
Qed.

(** Sums keep the order, whenever they are not NaN. *)
Lemma add_mono x y x' y' :
  (x <=? x')%float = true -> (y <=? y')%float = true ->
  is_nan (x + y) = false -> is_nan (x' + y') = false ->
  (x + y <=? x' + y')%float = true.
Proof.
  intros Hx Hy N N'.
  apply leb_iff in Hx as (Nx & Nx' & Hx). apply leb_iff in Hy as (Ny & Ny' & Hy).
  pose proof (add_key x y Nx Ny) as [Hn Hk].
  pose proof (add_key x' y' Nx' Ny') as [Hn' Hk'].
  apply leb_iff. repeat split; try assumption.
  rewrite Hk, Hk' by assumption.
  pose proof (fkey_bounds x). pose proof (fkey_bounds y).
  pose proof (fkey_bounds x'). pose proof (fkey_bounds y').
  apply addkey_mono; try lia.
  - intros H'. apply Hn in H'. congruence.
  - intros H'. apply Hn' in H'. congruence.
Qed.

(** ** Commutativity, subtraction, NaN *)

Lemma SFadd_comm x y : SFadd prec emax x y = SFadd prec emax y x.
Proof.
  destruct x as [sx|sx| |sx mx ex], y as [sy|sy| |sy my ey];
    try reflexivity; try (destruct sx, sy; reflexivity).
  cbn [SFadd]. rewrite (Z.min_comm ey ex), Z.add_comm. reflexivity.
Qed.

Lemma SFmul_comm x y : SFmul prec emax x y = SFmul prec emax y x.
Proof.
  destruct x as [sx|sx| |sx mx ex], y as [sy|sy| |sy my ey];
    try reflexivity; cbn [SFmul]; rewrite (xorb_comm sy sx); try reflexivity.
  rewrite (Pos.mul_comm my mx), (Z.add_comm ey ex). reflexivity.
Qed.

Lemma SFsub_add_opp x y : SFsub prec emax x y = SFadd prec emax x (SFopp y).
Proof.
  destruct x as [sx|sx| |sx mx ex], y as [sy|sy| |sy my ey];
    try reflexivity; destruct sx, sy; reflexivity.
Qed.

Lemma add_comm (x y : float) : (x + y = y + x)%float.
Proof.
  apply Prim2SF_inj. rewrite !FloatAxioms.add_spec. apply SFadd_comm.
Qed.

Lemma mul_comm (x y : float) : (x * y = y * x)%float.
Proof.
  apply Prim2SF_inj. rewrite !FloatAxioms.mul_spec. apply SFmul_comm.
Qed.

Lemma sub_add_opp (x y : float) : (x - y = x + (- y))%float.
Proof.
  apply Prim2SF_inj.
  rewrite FloatAxioms.sub_spec, FloatAxioms.add_spec, FloatAxioms.opp_spec.
  apply SFsub_add_opp.
Qed.

Lemma is_nan_add_l x y : is_nan x = true -> is_nan (x + y) = true.
Proof.
  rewrite !is_nan_prim, FloatAxioms.add_spec.
  destruct (Prim2SF x); try discriminate. reflexivity.
Qed.

Lemma is_nan_add_r x y : is_nan y = true -> is_nan (x + y) = true.
Proof. rewrite add_comm. apply is_nan_add_l. Qed.

Lemma is_nan_mul_r x y : is_nan y = true -> is_nan (x * y) = true.
Proof.
  rewrite !is_nan_prim, FloatAxioms.mul_spec.
  destruct (Prim2SF y); try discriminate. destruct (Prim2SF x); reflexivity.
Qed.

(** ** Finite values and intervals *)

Lemma finite_not_nan x : finite x -> is_nan x = false.
Proof.
  unfold finite. rewrite is_nan_prim. destruct (Prim2SF x); cbn; congruence.
Qed.

Lemma finite_key x : finite x <-> is_nan x = false /\ Z.abs (fkey x) < INF.
Proof.
  unfold finite, fkey. rewrite is_nan_prim.
  pose proof (Prim2SF_valid x) as V.
  destruct (is_nan_sf (Prim2SF x)) eqn:N.
  { destruct (Prim2SF x); try discriminate. cbn. intuition discriminate. }
  pose proof (key_abs _ V N) as Ha. pose proof (key_bounds _ V).
  destruct (is_finite_sf (Prim2SF x)); cbn [negb] in Ha.
  - apply Z.eqb_neq in Ha. intuition lia.
  - apply Z.eqb_eq in Ha. intuition (try discriminate; lia).
Qed.

Lemma finite_between lo hi x : finite lo -> finite hi ->
  (lo <=? x)%float = true -> (x <=? hi)%float = true -> finite x.
Proof.
  intros Hlo Hhi H1 H2.
  apply finite_key in Hlo as [_ Hlo]. apply finite_key in Hhi as [_ Hhi].
  apply leb_iff in H1 as (_ & N & H1). apply leb_iff in H2 as (_ & _ & H2).
  apply finite_key. split; [assumption|lia].
Qed.

Lemma add_finite_not_nan x y : finite x -> finite y -> is_nan (x + y) = false.
Proof.
  intros Fx Fy. apply finite_key in Fx as [Nx Kx]. apply finite_key in Fy as [Ny Ky].
  pose proof (add_key x y Nx Ny) as [Hn _].
  destruct (is_nan (x + y)); [|reflexivity].
  destruct Hn as [Hn _]. specialize (Hn eq_refl). lia.
Qed.

(** Interval arithmetic: an operation maps an interval between finite
    bounds into the interval between the images of the bounds. *)
Lemma between_mul c lo hi x : pos_finite c -> between lo hi x ->
  between (c * lo) (c * hi) (c * x).
Proof. intros Hc [H1 H2]. split; apply mul_mono; assumption. Qed.

Lemma between_add lo1 hi1 x lo2 hi2 y :
  between lo1 hi1 x -> between lo2 hi2 y ->
  finite lo1 -> finite hi1 -> finite lo2 -> finite hi2 ->
  between (lo1 + lo2) (hi1 + hi2) (x + y).
Proof.
  intros [Hx1 Hx2] [Hy1 Hy2] F1 F2 F3 F4.
  pose proof (finite_between _ _ _ F1 F2 Hx1 Hx2) as Fx.
  pose proof (finite_between _ _ _ F3 F4 Hy1 Hy2) as Fy.
  split; apply add_mono; auto using add_finite_not_nan.
Qed.

Lemma leb_refl x : is_nan x = false -> (x <=? x)%float = true.
Proof. intros. apply leb_iff. repeat split; auto. lia. Qed.

Lemma leb_trans x y z :
  (x <=? y)%float = true -> (y <=? z)%float = true -> (x <=? z)%float = true.
Proof.
  intros H1 H2. apply leb_iff in H1 as (? & ? & ?). apply leb_iff in H2 as (? & ? & ?).
  apply leb_iff. repeat split; auto. lia.
Qed.

(** ** Signed zeros *)

Lemma Prim2SF_neg_zero : Prim2SF neg_zero = S754_zero true.
Proof. reflexivity. Qed.

Lemma Prim2SF_zero : Prim2SF zero = S754_zero false.
Proof. reflexivity. Qed.

Lemma Prim2SF_neg_infinity : Prim2SF neg_infinity = S754_infinity true.
Proof. reflexivity. Qed.

Lemma add_neg_zero_r x : (x + neg_zero)%float = x.
Proof.
  apply Prim2SF_inj. rewrite FloatAxioms.add_spec, Prim2SF_neg_zero.
  destruct (Prim2SF x) as [[|]| | |]; reflexivity.
Qed.

Lemma add_zero_r x : x <> neg_zero -> (x + zero)%float = x.
Proof.
  intros Hx. apply Prim2SF_inj. rewrite FloatAxioms.add_spec, Prim2SF_zero.
  destruct (Prim2SF x) as [[|]| | |] eqn:E; try reflexivity.
  exfalso. apply Hx. apply Prim2SF_inj. rewrite E. reflexivity.
Qed.

Lemma add_eq_neg_zero x y :
  (x + y)%float = neg_zero -> x = neg_zero /\ y = neg_zero.
Proof.
  intros H. apply (f_equal Prim2SF) in H.
  rewrite FloatAxioms.add_spec, Prim2SF_neg_zero in H.
  pose proof (Prim2SF_valid x) as Vx. pose proof (Prim2SF_valid y) as Vy.
  destruct (is_finite_sf (Prim2SF x)) eqn:Fx, (is_finite_sf (Prim2SF y)) eqn:Fy.
  - pose proof (SFadd_finite_key _ _ Vx Vy Fx Fy) as (_ & _ & _ & Hz).
    destruct (Hz H) as [Hx Hy].
    split; apply Prim2SF_inj; rewrite Prim2SF_neg_zero; assumption.
  - destruct (Prim2SF x) as [| | |], (Prim2SF y) as [| | |]; discriminate.
  - destruct (Prim2SF x) as [[|]|[|]| |], (Prim2SF y) as [[|]|[|]| |]; discriminate.
  - destruct (Prim2SF x) as [[|]|[|]| |], (Prim2SF y) as [[|]|[|]| |]; discriminate.
Qed.

Lemma mul_zero_r x : finite x ->
  (x * zero)%float = zero \/ (x * zero)%float = neg_zero.
Proof.
  unfold finite. intros F.
  assert (H : exists s, Prim2SF (x * zero) = S754_zero s).
  { rewrite FloatAxioms.mul_spec, Prim2SF_zero.
    destruct (Prim2SF x) as [s|s| |s m e]; try discriminate; cbn [SFmul]; eauto. }
  destruct H as [[|] H]; [right|left]; apply Prim2SF_inj; rewrite H; reflexivity.
Qed.

(** ** The order up to missing values *)

Lemma fkey_neg_inf x : is_nan x = false -> fkey x = - INF -> x = neg_infinity.
Proof.
  rewrite is_nan_prim. unfold fkey. intros N Hk. apply Prim2SF_inj.
  rewrite Prim2SF_neg_infinity. pose proof (Prim2SF_valid x) as V.
  pose proof INF_pos.
  destruct (Prim2SF x) as [s|s| |s m e]; try discriminate N; cbn [key] in Hk.
  - lia.
  - destruct s; [reflexivity|cbn [sgn] in Hk; lia].
  - pose proof (key_finite_bounds (S754_finite s m e) V eq_refl) as B.
    pose proof threshold_lt_INF. cbn [key] in B. lia.
Qed.

Lemma fkey_neg_infinity : fkey neg_infinity = - INF.
Proof. reflexivity. Qed.

Lemma weak_le_mul c x x' : pos_finite c -> weak_le x x' -> weak_le (c * x) (c * x').
Proof.
  intros Hc [H|[H|[H1 H2]]].
  - left. apply is_nan_mul_r, H.
  - right; left. apply mul_mono; assumption.
  - right; right. split; [apply is_nan_mul_r, H1|]. subst x.
    pose proof (mul_pos_key c neg_infinity Hc eq_refl) as [N Hk].
    apply fkey_neg_inf; [assumption|]. rewrite Hk.
    unfold mulkey. rewrite fkey_neg_infinity.
    pose proof INF_pos.
    destruct (Z.eqb_spec (Z.abs (- INF)) INF); lia.
Qed.

Lemma weak_le_add_r y x x' : weak_le x x' -> weak_le (x + y) (x' + y).
Proof.
  pose proof INF_pos as HI.
  intros [H|[H|[H1 H2]]].
  - left. apply is_nan_add_l, H.
  - destruct (is_nan y) eqn:Ny; [left; apply is_nan_add_r, Ny|].
    destruct (is_nan (x + y)) eqn:N; [left; assumption|].
    destruct (is_nan (x' + y)) eqn:N'.
    + right; right. split; [assumption|].
      apply leb_iff in H as (Nx & Nx' & Hk).
      pose proof (add_key x y Nx Ny) as [Hn Hkey].
      pose proof (add_key x' y Nx' Ny) as [Hn' _].
      destruct Hn' as [Hn' _]. specialize (Hn' N') as [Ha Hy].
      assert (Hnn : ~ (Z.abs (fkey x) = INF /\ fkey y = - fkey x)).
      { intros Hc. apply Hn in Hc. congruence. }
      apply fkey_neg_inf; [assumption|]. rewrite Hkey by assumption.
      pose proof (fkey_bounds x). unfold addkey.
      destruct (Z.eqb_spec (Z.abs (fkey x)) INF), (Z.eqb_spec (Z.abs (fkey y)) INF);
        lia.
    + right; left. apply add_mono; auto using leb_refl.
  - subst x. destruct (is_nan (neg_infinity + y)) eqn:N; [left; assumption|].
    right; right. split; [apply is_nan_add_l, H1|].
    destruct (is_nan y) eqn:Ny.
    { rewrite (is_nan_add_r _ _ Ny) in N. discriminate. }
    pose proof (add_key neg_infinity y eq_refl Ny) as [_ Hkey].
    apply fkey_neg_inf; [assumption|]. rewrite Hkey by assumption.
    unfold addkey. rewrite fkey_neg_infinity.
    destruct (Z.eqb_spec (Z.abs (- INF)) INF); lia.
Qed.

Lemma weak_le_add_l y x x' : weak_le x x' -> weak_le (y + x) (y + x').
Proof. rewrite !(add_comm y). apply weak_le_add_r. Qed.

Lemma weak_le_of_leb x x' : (x <=? x')%float = true -> weak_le x x'.
Proof. intros. right; left. assumption. Qed.

Lemma weak_le_not_lt x x' : weak_le x x' -> (x' <? x)%float = false.
Proof.
  intros H. destruct (x' <? x)%float eqn:E; [|reflexivity].
  apply ltb_iff in E as (N' & N & Hk).
  destruct H as [H|[H|[H _]]]; try congruence.
  apply leb_iff in H as (_ & _ & H). lia.
Qed.

(** ** Negated comparisons *)

Lemma leb_false_key x y : is_nan x = false -> is_nan y = false ->
  (x <=? y)%float = false -> fkey y < fkey x.
Proof.
  intros Nx Ny H. destruct (Z_lt_le_dec (fkey y) (fkey x)) as [|Hle]; [assumption|].
  assert ((x <=? y)%float = true) by (apply leb_iff; auto). congruence.
Qed.

Lemma ltb_leb x y : (x <? y)%float = true -> (x <=? y)%float = true.
Proof.
  intros H. apply ltb_iff in H as (? & ? & ?). apply leb_iff. repeat split; auto. lia.
Qed.

(** ** The largest finite value *)

Lemma Prim2SF_max_float :
  Prim2SF max_float = S754_finite false 9007199254740991 971.
Proof. reflexivity. Qed.

Lemma finite_between_max x : finite x -> between (- max_float) max_float x.
Proof.
  intros F. pose proof (finite_not_nan x F) as N.
  unfold finite in F. pose proof (Prim2SF_valid x) as V.
  assert (Hk : Z.abs (fkey x) <= fkey max_float).
  { unfold fkey. rewrite Prim2SF_max_float. cbn [key sgn]. pose proof K_val as HK.
    pose proof (pow2_pos (971 + K) ltac:(lia)).
    destruct (Prim2SF x) as [s|s| |s m e]; try discriminate F; cbn [key].
    - lia.
    - cbn [valid_binary] in V. apply bounded_facts in V as (He & Hm & _).
      pose proof (pow2_pos (e + K) ltac:(lia)).
      pose proof (Z.pow_le_mono_r 2 (e + K) (971 + K) ltac:(lia) ltac:(lia)).
      change (2 ^ 53) with 9007199254740992 in Hm.
      destruct s; cbn [sgn]; nia. }
  assert (Ho : fkey (- max_float) = - fkey max_float) by reflexivity.
  split; apply leb_iff; repeat split; auto; lia.
Qed.

Lemma finite_max_float : finite max_float /\ finite (- max_float).
Proof. split; reflexivity. Qed.

End Binary64.

Import Binary64.

(** * Properties of the script *)

(** ** The scenarios of the specification *)

(** Scenario A: 10 hours, previous score 80, attendance 90, no noise. *)
Example scenario_A :
  score_brut source_config 10 80 90 0 = 27.8%float ∧
  final_score source_config 10 80 90 0 = 20%float ∧
  passed source_config (final_score source_config 10 80 90 0) = 1.
Proof. repeat split; reflexivity. Qed.

(** Scenario B: all predictors 0, no noise. *)
Example scenario_B :
  final_score source_config 0 0 0 0 = 8%float ∧
  passed source_config (final_score source_config 0 0 0 0) = 0.
Proof. split; reflexivity. Qed.

(** ** Labelled columns *)

Section Columns.
Implicit Types (c : string) (s : Series) (cs : list (string * Series)).

Lemma assoc_get_set_eq c s cs : assoc_get c (assoc_set c s cs) = Some s.
Proof.
  induction cs as [|[c0 s0] cs IH]; cbn.
  - by rewrite String.eqb_refl.
  - destruct (String.eqb_spec c0 c) as [->|Hne]; cbn.
    + by rewrite String.eqb_refl.
    + by destruct (String.eqb_spec c0 c).
Qed.

Lemma assoc_get_set_ne c c' s cs :
  c ≠ c' → assoc_get c' (assoc_set c s cs) = assoc_get c' cs.
Proof.
  intros Hne. induction cs as [|[c0 s0] cs IH]; cbn.
  - by destruct (String.eqb_spec c c').
  - destruct (String.eqb_spec c0 c) as [->|Hne0]; cbn.
    + by destruct (String.eqb_spec c c').
    + by rewrite IH.
Qed.

Lemma assoc_get_filter_ne c c' cs :
  c ≠ c' →
  assoc_get c' (List.filter (λ x, negb (String.eqb x.1 c)) cs) = assoc_get c' cs.
Proof.
  intros Hne. induction cs as [|[c0 s0] cs IH]; cbn; [done|].
  destruct (String.eqb_spec c0 c) as [->|Hne0]; cbn.
  - by destruct (String.eqb_spec c c').
  - by rewrite IH.
Qed.

Lemma filter_names_absent c cs :
  c ∉ (List.filter (λ x, negb (String.eqb x.1 c)) cs).*1.
Proof.
  induction cs as [|[c0 s0] cs IH]; cbn; [apply not_elem_of_nil|].
  destruct (String.eqb_spec c0 c) as [->|Hne0]; cbn; [done|].
  rewrite not_elem_of_cons. split; [congruence|done].
Qed.

Lemma assoc_set_fresh c s cs : c ∉ cs.*1 → assoc_set c s cs = cs ++ [(c, s)].
Proof.
  induction cs as [|[c0 s0] cs IH]; cbn; [done|].
  rewrite not_elem_of_cons. intros [Hne Hni].
  destruct (String.eqb_spec c0 c) as [->|_]; [done|]. by rewrite IH.
Qed.

Lemma filter_names_fresh c cs :
  c ∉ cs.*1 → List.filter (λ x, negb (String.eqb x.1 c)) cs = cs.
Proof.
  induction cs as [|[c0 s0] cs IH]; cbn; [done|].
  rewrite not_elem_of_cons. intros [Hne Hni].
  destruct (String.eqb_spec c0 c) as [->|_]; [done|]. cbn. by rewrite IH.
Qed.

Lemma assoc_get_Some_names c s cs : assoc_get c cs = Some s → c ∈ cs.*1.
Proof.
  induction cs as [|[c0 s0] cs IH]; cbn; [done|].
  destruct (String.eqb_spec c0 c) as [->|_]; intros H.
  - apply elem_of_cons. by left.
  - apply elem_of_cons. right. by apply IH.
Qed.

Lemma assoc_get_elem c s cs : assoc_get c cs = Some s → (c, s) ∈ cs.
Proof.
  induction cs as [|[c0 s0] cs IH]; cbn; [done|].
  destruct (String.eqb_spec c0 c) as [->|_]; intros H.
  - simplify_eq. apply elem_of_cons. by left.
  - apply elem_of_cons. right. by apply IH.
Qed.

End Columns.

(** The columns [generate] reads back on lines 89 and 94 are the ones it
    has just assigned. *)
Lemma get_set_col_eq c s df : get_col c (set_col c s df) = Some s.
Proof. apply assoc_get_set_eq. Qed.

Lemma get_set_col_ne c c' s df : c ≠ c' → get_col c' (set_col c s df) = get_col c' df.
Proof. apply assoc_get_set_ne. Qed.

Lemma get_drop_col_ne c c' df : c ≠ c' → get_col c' (drop_col c df) = get_col c' df.
Proof. apply assoc_get_filter_ne. Qed.

Lemma generate_inv cfg draw data out :
  generate cfg draw data = Ok out →
  ∃ brut, Final_Exam_Score_brut cfg draw data = Ok brut ∧ out = targets cfg brut data.
Proof.
  unfold generate, bind. destruct (Final_Exam_Score_brut cfg draw data) as [brut|e];
    [|done].
  intros [= <-]. by exists brut.
Qed.

Lemma targets_score cfg brut data :
  get_col "Final_Exam_Score" (targets cfg brut data)
  = Some (Float64 (clip 0.0 20.0 <$> brut)).
Proof.
  unfold targets. rewrite get_drop_col_ne, get_set_col_ne by done.
  apply get_set_col_eq.
Qed.

Lemma targets_passed cfg brut data :
  get_col "Passed_Course" (targets cfg brut data)
  = Some (Int64 (passed cfg <$> (clip 0.0 20.0 <$> brut))).
Proof.
  unfold targets. rewrite get_drop_col_ne by done. apply get_set_col_eq.
Qed.

Lemma targets_other cfg brut data c :
  c ≠ "Final_Exam_Score_brut" → c ≠ "Final_Exam_Score" → c ≠ "Passed_Course" →
  get_col c (targets cfg brut data) = get_col c data.
Proof.
  intros. unfold targets.
  by rewrite get_drop_col_ne, !get_set_col_ne.
Qed.

Lemma targets_nrows cfg brut data : nrows (targets cfg brut data) = nrows data.
Proof. done. Qed.

Lemma targets_no_brut cfg brut data :
  "Final_Exam_Score_brut" ∉ column_names (targets cfg brut data).
Proof. apply filter_names_absent. Qed.

Lemma targets_fresh cfg brut data :
  "Final_Exam_Score_brut" ∉ column_names data →
  "Final_Exam_Score" ∉ column_names data →
  "Passed_Course" ∉ column_names data →
  columns (targets cfg brut data) =
  columns data ++
    [("Final_Exam_Score", Float64 (clip 0.0 20.0 <$> brut));
     ("Passed_Course", Int64 (passed cfg <$> (clip 0.0 20.0 <$> brut)))].
Proof.
  unfold column_names. intros H1 H2 H3. unfold targets, drop_col, set_col. cbn.
  rewrite (assoc_set_fresh "Final_Exam_Score_brut") by done.
  rewrite (assoc_set_fresh "Final_Exam_Score")
    by (rewrite fmap_app, elem_of_app; cbn; rewrite list_elem_of_singleton;
        intros [?|?]; done).
  rewrite (assoc_set_fresh "Passed_Course")
    by (rewrite !fmap_app, !elem_of_app; cbn; rewrite !list_elem_of_singleton;
        intros [[?|?]|?]; done).
  rewrite !List.filter_app. cbn.
  rewrite filter_names_fresh by done. by rewrite <- !app_assoc.
Qed.

(** ** Row by row *)

Lemma brut_inv cfg draw data brut :
  Final_Exam_Score_brut cfg draw data = Ok brut →
  ∃ h p a,
    operand "Hours_Studied" data = Ok h ∧ operand "Previous_Score" data = Ok p ∧
    operand "Attendance_Rate" data = Ok a ∧
    brut = raw_scores cfg h p a (bruit_aleatoire cfg draw (nrows data)).
Proof.
  unfold Final_Exam_Score_brut, bind.
  destruct (operand "Hours_Studied" data) as [h|]; [|done].
  destruct (operand "Previous_Score" data) as [p|]; [|done].
  destruct (operand "Attendance_Rate" data) as [a|]; [|done].
  intros [= <-]. by exists h, p, a.
Qed.

Lemma bruit_aleatoire_lookup cfg draw n i b :
  bruit_aleatoire cfg draw n !! i = Some b ↔ (i < n)%nat ∧ b = bruit cfg (draw i).
Proof.
  unfold bruit_aleatoire, np_random_rand.
  rewrite list_lookup_fmap_Some. split.
  - intros (u & Hb & Hu). apply list_lookup_fmap_Some in Hu as (j & Hu & Hj).
    apply lookup_seq in Hj. destruct Hj as [Hj Hlt]. subst. done.
  - intros [Hi ->]. exists (draw i). split; [done|].
    apply list_lookup_fmap_Some. exists i. split; [done|]. by apply lookup_seq.
Qed.

(** Row [i] of the raw column is the formula of lines 81-85 on row [i] of
    the predictors and the i-th draw. *)
Lemma raw_scores_lookup cfg draw n h p a i r :
  raw_scores cfg h p a (bruit_aleatoire cfg draw n) !! i = Some r ↔
  ∃ hi pi ai,
    h !! i = Some hi ∧ p !! i = Some pi ∧ a !! i = Some ai ∧ (i < n)%nat ∧
    r = score_brut cfg hi pi ai (bruit cfg (draw i)).
Proof.
  unfold raw_scores, score_brut. split.
  - intros H.
    apply lookup_zip_with_Some in H as (x3 & b & -> & H & Hb).
    apply lookup_zip_with_Some in H as (x2 & ya & -> & H & Ha).
    apply lookup_zip_with_Some in H as (x1 & yp & -> & H & Hp).
    apply list_lookup_fmap_Some in H as (yh & -> & Hh).
    apply list_lookup_fmap_Some in Hh as (hi & -> & Hh).
    apply list_lookup_fmap_Some in Hp as (pi & -> & Hp).
    apply list_lookup_fmap_Some in Ha as (ai & -> & Ha).
    apply bruit_aleatoire_lookup in Hb as [Hi ->].
    by exists hi, pi, ai.
  - intros (hi & pi & ai & Hh & Hp & Ha & Hi & ->).
    apply lookup_zip_with_Some. eexists _, _. split; [done|]. split.
    2: { by apply bruit_aleatoire_lookup. }
    apply lookup_zip_with_Some. eexists _, _. split; [done|]. split.
    2: { apply list_lookup_fmap_Some. by eexists. }
    apply lookup_zip_with_Some. eexists _, _. split; [done|]. split.
    2: { apply list_lookup_fmap_Some. by eexists. }
    apply list_lookup_fmap_Some. eexists. split; [done|].
    apply list_lookup_fmap_Some. by eexists.
Qed.

(** Row [i] of the two targets is [final_score] and [passed] on row [i] of
    the predictors and the i-th draw: the properties of one row below are
    properties of every row of the table. *)
Lemma generate_rows cfg draw data out :
  generate cfg draw data = Ok out →
  ∃ h p a score flag,
    operand "Hours_Studied" data = Ok h ∧
    operand "Previous_Score" data = Ok p ∧
    operand "Attendance_Rate" data = Ok a ∧
    get_col "Final_Exam_Score" out = Some (Float64 score) ∧
    get_col "Passed_Course" out = Some (Int64 flag) ∧
    ∀ i x, score !! i = Some x →
      ∃ hi pi ai,
        h !! i = Some hi ∧ p !! i = Some pi ∧ a !! i = Some ai ∧
        x = final_score cfg hi pi ai (bruit cfg (draw i)) ∧
        flag !! i = Some (passed cfg x).
Proof.
  intros (brut & (h & p & a & Hh & Hp & Ha & ->)%brut_inv & ->)%generate_inv.
  exists h, p, a. eexists _, _. repeat (split; [done|]).
  split; [apply targets_score|]. split; [apply targets_passed|].
  intros i x (r & -> & Hr)%list_lookup_fmap_Some.
  pose proof Hr as (hi & pi & ai & ? & ? & ? & _ & ->)%raw_scores_lookup.
  exists hi, pi, ai. repeat (split; [done|]).
  apply list_lookup_fmap_Some. eexists. split; [done|].
  by apply list_lookup_fmap_Some_2.
Qed.

(** ** Shape of the result *)

Lemma as_float64_length s xs : as_float64 s = Ok xs → length xs = Series_len s.
Proof.
  destruct s as [l|l|l|[|? l]]; cbn; intros [= <-]; by rewrite ?length_fmap.
Qed.

Lemma operand_length c data xs :
  wf_frame data → operand c data = Ok xs → length xs = nrows data.
Proof.
  intros [_ Hlen]. unfold operand, get_col.
  destruct (assoc_get c (columns data)) as [s|] eqn:Hs; [|done].
  intros Hx. rewrite (as_float64_length _ _ Hx).
  apply assoc_get_elem in Hs. rewrite Forall_forall in Hlen. apply (Hlen _ Hs).
Qed.

Lemma bruit_aleatoire_length cfg draw n : length (bruit_aleatoire cfg draw n) = n.
Proof.
  unfold bruit_aleatoire, np_random_rand. by rewrite !length_fmap, length_seq.
Qed.

Lemma raw_scores_length cfg h p a noise n :
  length h = n → length p = n → length a = n → length noise = n →
  length (raw_scores cfg h p a noise) = n.
Proof.
  intros. unfold raw_scores. rewrite !length_zip_with, !length_fmap. lia.
Qed.

Lemma brut_length cfg draw data brut :
  wf_frame data → Final_Exam_Score_brut cfg draw data = Ok brut →
  length brut = nrows data.
Proof.
  intros Hwf (h & p & a & Hh & Hp & Ha & ->)%brut_inv.
  apply raw_scores_length;
    eauto using operand_length, bruit_aleatoire_length.
Qed.

Lemma Forall_assoc_set (P : string * Series → Prop) c s cs :
  Forall P cs → (∀ c0, P (c0, s)) → Forall P (assoc_set c s cs).
Proof.
  intros Hcs Hs. induction Hcs as [|[c0 s0] cs H0 Hcs IH]; cbn.
  - by constructor.
  - destruct (String.eqb c0 c); constructor; auto.
Qed.

Lemma Forall_List_filter {A} (P : A → Prop) f (l : list A) :
  Forall P l → Forall P (List.filter f l).
Proof.
  rewrite !Forall_forall. intros H x Hx.
  apply list_elem_of_In, filter_In in Hx as [Hx _]. by apply H, list_elem_of_In.
Qed.

Lemma targets_lengths cfg brut data :
  length brut = nrows data →
  Forall (λ cs, Series_len cs.2 = nrows data) (columns data) →
  Forall (λ cs, Series_len cs.2 = nrows data) (columns (targets cfg brut data)).
Proof.
  intros Hb Hd. unfold targets, drop_col, set_col. cbn.
  apply Forall_List_filter.
  repeat apply Forall_assoc_set; try done; intros; cbn; by rewrite ?length_fmap.
Qed.

(** ** The two targets *)

(** C2. In the table [generate] returns, row [i] of [Passed_Course] is 1
    exactly when row [i] of [Final_Exam_Score] is at least [note_passage]
    (15.0 in the script) and 0 exactly when it is not; the two columns have
    the same length and [Passed_Course] holds no other value. *)
Theorem passed_course_consistent cfg draw data out :
  generate cfg draw data = Ok out →
  ∃ score flag,
    get_col "Final_Exam_Score" out = Some (Float64 score) ∧
    get_col "Passed_Course" out = Some (Int64 flag) ∧
    length flag = length score ∧
    ∀ i x, score !! i = Some x →
      ∃ v, flag !! i = Some v ∧
        (v = 1 ↔ (note_passage cfg <=? x)%float = true) ∧
        (v = 0 ↔ (note_passage cfg <=? x)%float = false) ∧
        (v = 0 ∨ v = 1).
Proof.
  intros (brut & _ & ->)%generate_inv.
  eexists _, _. split; [apply targets_score|]. split; [apply targets_passed|].
  split; [by rewrite length_fmap|].
  intros i x Hx. exists (passed cfg x). split.
  - by apply list_lookup_fmap_Some_2.
  - unfold passed. destruct (note_passage cfg <=? x)%float; naive_solver.
Qed.

Lemma three_students_generate :
  generate source_config (λ _, 0.5%float) three_students = Ok three_students_out.
Proof. vm_compute. reflexivity. Qed.

Lemma passed_course_consistent_witness :
  ∃ score flag,
    get_col "Final_Exam_Score" three_students_out = Some (Float64 score) ∧
    get_col "Passed_Course" three_students_out = Some (Int64 flag) ∧
    length flag = length score ∧
    ∀ i x, score !! i = Some x →
      ∃ v, flag !! i = Some v ∧
        (v = 1 ↔ (note_passage source_config <=? x)%float = true) ∧
        (v = 0 ↔ (note_passage source_config <=? x)%float = false) ∧
        (v = 0 ∨ v = 1).
Proof.
  apply (passed_course_consistent source_config (λ _, 0.5%float) three_students).
  vm_compute. reflexivity.
Defined.

(** ** Rows and columns kept *)

Lemma assigned_false c :
  assigned c = false →
  c ≠ "Final_Exam_Score_brut" ∧ c ≠ "Final_Exam_Score" ∧ c ≠ "Passed_Course".
Proof.
  unfold assigned. rewrite !orb_false_iff, !String.eqb_neq. tauto.
Qed.

Lemma filter_assoc_set c s cs :
  assigned c = true →
  List.filter kept (assoc_set c s cs)
  = List.filter kept cs.
Proof.
  intros Hc. unfold kept. induction cs as [|[c0 s0] cs IH]; cbn.
  - by rewrite Hc.
  - destruct (String.eqb_spec c0 c) as [->|Hne]; cbn.
    + by rewrite Hc.
    + by rewrite IH.
Qed.

Lemma filter_drop c cs :
  assigned c = true →
  List.filter kept (List.filter (λ x, negb (String.eqb x.1 c)) cs)
  = List.filter kept cs.
Proof.
  intros Hc. unfold kept. induction cs as [|[c0 s0] cs IH]; cbn; [done|].
  destruct (String.eqb_spec c0 c) as [->|Hne]; cbn.
  - by rewrite Hc.
  - by rewrite IH.
Qed.

(** Apart from the assigned labels, the result has the columns of the
    input, in the same order and with the same cells. *)
Lemma targets_frame cfg brut data :
  List.filter kept (columns (targets cfg brut data))
  = List.filter kept (columns data).
Proof.
  unfold targets, drop_col, set_col. cbn.
  by rewrite filter_drop, !filter_assoc_set.
Qed.

(** C4 (as amended). The table [generate] returns has the row count of the
    input, every one of its columns has one cell per input row, and every
    input column whose label is not one the script assigns
    ([Final_Exam_Score_brut], [Final_Exam_Score], [Passed_Course]) is in the
    result with the same cells in the same order. *)
Theorem rows_preserved cfg draw data out :
  wf_frame data →
  generate cfg draw data = Ok out →
  nrows out = nrows data ∧
  Forall (λ cs, Series_len cs.2 = nrows data) (columns out) ∧
  ∀ c s, assigned c = false → get_col c data = Some s → get_col c out = Some s.
Proof.
  intros Hwf (brut & Hb & ->)%generate_inv. split; [done|]. split.
  - apply targets_lengths; [by eapply brut_length|apply Hwf].
  - intros c s (? & ? & ?)%assigned_false Hs. by rewrite targets_other.
Qed.

Lemma three_students_wf : wf_frame three_students.
Proof.
  split.
  - compute_done.
  - repeat constructor.
Qed.

Lemma rows_preserved_witness :
  nrows three_students_out = nrows three_students ∧
  Forall (λ cs, Series_len cs.2 = nrows three_students) (columns three_students_out) ∧
  ∀ c s, assigned c = false →
    get_col c three_students = Some s → get_col c three_students_out = Some s.
Proof.
  apply (rows_preserved source_config (λ _, 0.5%float) three_students).
  - exact three_students_wf.
  - vm_compute. reflexivity.
Defined.

(** C4, counterexample. [earlier_output] passes the column check, and the
    run with draw 0.1 returns a table whose row 0 has other cells under
    [Final_Exam_Score] and [Passed_Course] than the input row 0. *)
Lemma rows_preserved_counterexample :
  forallb (λ col, has_column col earlier_output) required_predictors = true ∧
  ∃ out, generate source_config (λ _, 0.1%float) earlier_output = Ok out ∧
    get_col "Passed_Course" earlier_output = Some (Int64 [1]) ∧
    get_col "Passed_Course" out = Some (Int64 [0]) ∧
    get_col "Final_Exam_Score" out ≠ get_col "Final_Exam_Score" earlier_output.
Proof.
  split; [reflexivity|]. eexists. split; [vm_compute; reflexivity|].
  split; [reflexivity|]. split; [reflexivity|].
  intros H.
  apply (f_equal (λ o, match o with
                       | Some (Float64 [x]) => Prim2SF x
                       | _ => S754_nan
                       end)) in H.
  vm_compute in H. discriminate H.
Qed.

(** ** Runs of the script *)

Lemma script_loaded cfg draw fault (fs : filesystem) data :
  fs !! input_filename cfg = Some (Delimited data) →
  script cfg draw fault fs =
  if negb (forallb (λ col, has_column col data) required_predictors) then
    (ExitMissing (List.filter (λ col, negb (has_column col data)) required_predictors), fs)
  else
    match generate cfg draw data with
    | Raise e => (Uncaught e, fs)
    | Ok out =>
        match to_csv fault (output_filename cfg) (output_delimiter cfg) false out fs with
        | (true, fs') => (Finished, fs')
        | (false, fs') => (ExportError, fs')
        end
    end.
Proof. intros H. unfold script. by rewrite H. Qed.

(** A run finishes exactly when the input loads, has the predictors, the
    computation returns and the export goes through. *)
Lemma script_finished cfg draw fault (fs fs' : filesystem) :
  script cfg draw fault fs = (Finished, fs') ↔
  ∃ data out,
    fs !! input_filename cfg = Some (Delimited data) ∧
    forallb (λ col, has_column col data) required_predictors = true ∧
    generate cfg draw data = Ok out ∧
    fault = NoFault ∧
    fs' = <[output_filename cfg := Delimited (csv_table false out)]> fs.
Proof.
  unfold script. split.
  - destruct (fs !! input_filename cfg) as [[|data]|] eqn:Hin; cbn [read_csv];
      [done| |done].
    destruct (forallb _ required_predictors) eqn:Hall; cbn [negb]; [|done].
    destruct (generate cfg draw data) as [out|e] eqn:Hgen; [|done].
    destruct fault; cbn [to_csv]; [|done..].
    intros [= <-]. by exists data, out.
  - intros (data & out & Hin & Hall & Hgen & -> & ->).
    rewrite Hin. cbn [read_csv]. rewrite Hall. cbn [negb]. by rewrite Hgen.
Qed.

(** The computation returns on every table whose predictor columns are
    numeric. *)
Lemma generate_total cfg draw data h p a :
  operand "Hours_Studied" data = Ok h →
  operand "Previous_Score" data = Ok p →
  operand "Attendance_Rate" data = Ok a →
  generate cfg draw data
  = Ok (targets cfg (raw_scores cfg h p a (bruit_aleatoire cfg draw (nrows data))) data).
Proof.
  intros Hh Hp Ha. unfold generate, Final_Exam_Score_brut. by rewrite Hh, Hp, Ha.
Qed.

(** C7. When the input path does not exist, the script stops at the
    existence check (lines 44-47), before it loads or computes anything:
    whatever the generator, the destination device and the configuration,
    the run ends there and the filesystem is left as it was. *)
Theorem missing_file_gate cfg draw fault (fs : filesystem) :
  fs !! input_filename cfg = None →
  script cfg draw fault fs = (ExitNotFound, fs).
Proof. intros H. unfold script. by rewrite H. Qed.

Lemma missing_file_gate_witness :
  script source_config (λ _, 0.5%float) NoFault ∅ = (ExitNotFound, ∅).
Proof. apply missing_file_gate. reflexivity. Defined.

(** C6. When the loaded table lacks at least one of the three predictor
    columns, the run ends at the column check (lines 65-69) with the list
    of exactly the required labels that are absent, and the filesystem is
    left as it was. *)
Theorem schema_gate cfg draw fault (fs : filesystem) data :
  fs !! input_filename cfg = Some (Delimited data) →
  (∃ col, col ∈ required_predictors ∧ col ∉ column_names data) →
  ∃ missing,
    script cfg draw fault fs = (ExitMissing missing, fs) ∧
    missing ≠ [] ∧
    ∀ col, col ∈ missing ↔ col ∈ required_predictors ∧ col ∉ column_names data.
Proof.
  intros Hfs (col & Hreq & Habs).
  exists (List.filter (λ col, negb (has_column col data)) required_predictors).
  assert (Hspec : ∀ c,
    c ∈ List.filter (λ col, negb (has_column col data)) required_predictors
    ↔ c ∈ required_predictors ∧ c ∉ column_names data).
  { intros c. rewrite (list_elem_of_In (List.filter _ _)), filter_In, negb_true_iff.
    unfold has_column. by rewrite bool_decide_eq_false, <- list_elem_of_In. }
  split; [|split; [|done]].
  - rewrite (script_loaded _ _ _ _ _ Hfs).
    destruct (forallb _ required_predictors) eqn:Hall; [|done].
    exfalso. rewrite forallb_forall in Hall.
    apply list_elem_of_In in Hreq. specialize (Hall _ Hreq).
    unfold has_column in Hall. by apply bool_decide_eq_true in Hall.
  - intros Hnil. assert (Hin : col ∈ @nil string); [|by apply elem_of_nil in Hin].
    rewrite <- Hnil. by apply Hspec.
Qed.

Lemma schema_gate_witness :
  ∃ missing,
    script source_config (λ _, 0.5%float) NoFault
      {[ "mockaroo_predicteurs.csv" := Delimited no_attendance ]}
    = (ExitMissing missing,
       {[ "mockaroo_predicteurs.csv" := Delimited no_attendance ]}) ∧
    missing ≠ [] ∧
    ∀ col, col ∈ missing ↔
           col ∈ required_predictors ∧ col ∉ column_names no_attendance.
Proof.
  apply (schema_gate source_config (λ _, 0.5%float) NoFault
           {[ "mockaroo_predicteurs.csv" := Delimited no_attendance ]} no_attendance).
  - reflexivity.
  - exists "Attendance_Rate". split; compute_done.
Defined.

Example schema_gate_names_attendance :
  (script source_config (λ _, 0.5%float) NoFault
     {[ "mockaroo_predicteurs.csv" := Delimited no_attendance ]}).1
  = ExitMissing ["Attendance_Rate"].
Proof. reflexivity. Qed.

(** C5 (as amended). A run that does not finish because the input is
    absent, cannot be parsed, lacks a predictor, or because the computation
    raises, leaves the filesystem as it was.  A failing export is caught
    and reported (lines 115-117) and nothing cleans up after it: no path
    other than the destination changes, a destination that existed still
    exists, and it holds what [to_csv] had written when it failed: it is
    untouched when it could not be opened, and otherwise created or
    truncated, with the first [k] rows when the device failed after [k]
    rows and with whatever had reached it (possibly no byte, possibly a
    row cut short) in every other case. *)
Theorem failed_run_effects cfg draw fault (fs fs' : filesystem) o :
  script cfg draw fault fs = (o, fs') →
  o ≠ Finished →
  failure_effects cfg draw fault fs o fs'.
Proof.
  unfold script, failure_effects.
  destruct (fs !! input_filename cfg) as [[|data]|] eqn:Hin; cbn [read_csv];
    [by intros [= <- <-]| |by intros [= <- <-]].
  destruct (negb (forallb _ required_predictors)); [by intros [= <- <-]|].
  destruct (generate cfg draw data) as [out|e] eqn:Hgen; [|by intros [= <- <-]].
  destruct fault as [| |k|partial]; cbn [to_csv]; intros [= <- <-] Hne; [done|..];
    (split; [done|]); intros _;
    (split; [intros path Hp; by rewrite ?lookup_insert_ne|]);
    (split; [intros Hs; rewrite ?lookup_insert_eq; by eauto|]).
  - done.
  - by exists data, out.
  - done.
Qed.

Lemma failed_run_effects_witness :
  failure_effects source_config (λ _, 0.5%float) (FailsPartway Unparseable)
    {[ "mockaroo_predicteurs.csv" := Delimited two_students ]}
    ExportError
    {[ "mockaroo_predicteurs.csv" := Delimited two_students;
       "dataset_etudiant_corrélé.csv" := Unparseable ]}.
Proof.
  apply failed_run_effects.
  - vm_compute. reflexivity.
  - discriminate.
Defined.

(** An export that fails before the first byte: the destination, absent
    before, is left created and empty, which [read_csv] cannot parse. *)
Example empty_output_left :
  let fs : filesystem := {[ "mockaroo_predicteurs.csv" := Delimited two_students ]} in
  let run := script source_config (λ _, 0.5%float) (FailsPartway Unparseable) fs in
  fs !! output_filename source_config = None ∧
  run.1 = ExportError ∧
  run.2 !! output_filename source_config = Some Unparseable.
Proof. cbv zeta. split; [reflexivity|]. split; [reflexivity|]. vm_compute. reflexivity. Qed.

(** C5, counterexample. The device fails after the first of two rows: the
    run reports the export error and the destination, absent before, holds
    a table with the first row only. *)
Lemma partial_output_counterexample :
  let fs : filesystem := {[ "mockaroo_predicteurs.csv" := Delimited two_students ]} in
  let run := script source_config (λ _, 0.5%float) (FailsAfter 1) fs in
  fs !! output_filename source_config = None ∧
  run.1 = ExportError ∧
  ∃ part, run.2 !! output_filename source_config = Some (Delimited part) ∧
          nrows part = 1%nat ∧
          get_col "Final_Exam_Score" part = Some (Float64 [20]%float).
Proof.
  cbv zeta. split; [reflexivity|]. split; [reflexivity|].
  eexists. split; [vm_compute; reflexivity|]. split; reflexivity.
Qed.

(** C8 (as amended). When the run finishes, the destination holds a table
    with the row count of the input and without the label
    [Final_Exam_Score_brut]; apart from the labels the script assigns, its
    columns are those of the input, in order and with their cells
    unchanged, so no row-index column precedes them.  When the input carries
    none of the assigned labels, the persisted columns are exactly the input
    columns followed by [Final_Exam_Score] and [Passed_Course]. *)
Theorem persisted_columns cfg draw (fs fs' : filesystem) data :
  fs !! input_filename cfg = Some (Delimited data) →
  script cfg draw NoFault fs = (Finished, fs') →
  ∃ brut out,
    Final_Exam_Score_brut cfg draw data = Ok brut ∧
    fs' = <[output_filename cfg := Delimited out]> fs ∧
    nrows out = nrows data ∧
    ("Final_Exam_Score_brut" ∉ column_names out) ∧
    List.filter kept (columns out) = List.filter kept (columns data) ∧
    (∀ c s, assigned c = false → get_col c data = Some s → get_col c out = Some s) ∧
    ((∀ c, c ∈ column_names data → assigned c = false) →
     columns out =
     columns data ++
       [("Final_Exam_Score", Float64 (clip 0.0 20.0 <$> brut));
        ("Passed_Course", Int64 (passed cfg <$> (clip 0.0 20.0 <$> brut)))]).
Proof.
  intros Hfs. rewrite (script_loaded _ _ _ _ _ Hfs).
  destruct (negb (forallb _ required_predictors)); [done|].
  destruct (generate cfg draw data) as [out|e] eqn:Hgen; [|done].
  cbn [to_csv]. intros [= <-].
  apply generate_inv in Hgen as (brut & Hb & ->).
  exists brut, (csv_table false (targets cfg brut data)).
  split; [done|]. split; [done|]. split; [done|].
  split; [apply targets_no_brut|]. split; [apply targets_frame|]. split.
  - intros c s (? & ? & ?)%assigned_false Hs.
    change (get_col c (targets cfg brut data) = Some s). by rewrite targets_other.
  - intros Hkept. change (columns (csv_table false ?t)) with (columns t).
    assert (Hfresh : ∀ c, assigned c = true → c ∉ column_names data).
    { intros c Hc Hin. apply Hkept in Hin. congruence. }
    apply targets_fresh; by apply Hfresh.
Qed.

Lemma persisted_columns_witness :
  ∃ brut out,
    Final_Exam_Score_brut source_config (λ _, 0.5%float) three_students = Ok brut ∧
    (<[ "dataset_etudiant_corrélé.csv" := Delimited three_students_out ]>
       {[ "mockaroo_predicteurs.csv" := Delimited three_students ]} : filesystem)
    = <[output_filename source_config := Delimited out]>
        {[ "mockaroo_predicteurs.csv" := Delimited three_students ]} ∧
    nrows out = nrows three_students ∧
    ("Final_Exam_Score_brut" ∉ column_names out) ∧
    List.filter kept (columns out) = List.filter kept (columns three_students) ∧
    (∀ c s, assigned c = false →
       get_col c three_students = Some s → get_col c out = Some s) ∧
    ((∀ c, c ∈ column_names three_students → assigned c = false) →
     columns out =
     columns three_students ++
       [("Final_Exam_Score", Float64 (clip 0.0 20.0 <$> brut));
        ("Passed_Course",
         Int64 (passed source_config <$> (clip 0.0 20.0 <$> brut)))]).
Proof.
  apply (persisted_columns source_config (λ _, 0.5%float)
           {[ "mockaroo_predicteurs.csv" := Delimited three_students ]}).
  - reflexivity.
  - vm_compute. reflexivity.
Defined.

(** C8, counterexample. Given [earlier_output], the run finishes and the
    persisted table has the five labels of the input and no more: no two
    columns were added, and the cell under [Final_Exam_Score] is not the
    input's. *)
Lemma persisted_columns_counterexample :
  let fs : filesystem :=
    {[ "mockaroo_predicteurs.csv" := Delimited earlier_output ]} in
  let run := script source_config (λ _, 0.1%float) NoFault fs in
  run.1 = Finished ∧
  ∃ out, run.2 !! output_filename source_config = Some (Delimited out) ∧
    column_names out = column_names earlier_output ∧
    get_col "Final_Exam_Score" earlier_output = Some (Float64 [15.5]%float) ∧
    get_col "Final_Exam_Score" out ≠ Some (Float64 [15.5]%float).
Proof.
  cbv zeta. split; [reflexivity|].
  eexists. split; [vm_compute; reflexivity|].
  split; [reflexivity|]. split; [reflexivity|].
  intros H.
  apply (f_equal (λ o, match o with
                       | Some (Float64 [x]) => Prim2SF x
                       | _ => S754_nan
                       end)) in H.
  vm_compute in H. discriminate H.
Qed.

(** ** Scores *)

Lemma clip_nan lower upper x : is_nan x = true → clip lower upper x = x.
Proof. intros H. unfold clip. by rewrite H. Qed.

Lemma clip_between x : is_nan x = false → between 0 20 (clip 0 20 x).
Proof.
  intros H. unfold clip, between. rewrite H. cbn [orb].
  destruct (0 <=? x)%float eqn:A, (x <=? 20)%float eqn:B; done.
Qed.

Lemma clip_mono x x' :
  (x <=? x')%float = true → (clip 0 20 x <=? clip 0 20 x')%float = true.
Proof.
  intros H. pose proof H as (Nx & Nx' & Hk)%leb_iff.
  assert (H020 : fkey 0 <= fkey 20) by (apply (leb_iff 0 20); reflexivity).
  unfold clip. rewrite Nx, Nx'. cbn [orb].
  destruct (0 <=? x)%float eqn:A, (x <=? 20)%float eqn:B,
    (0 <=? x')%float eqn:A', (x' <=? 20)%float eqn:B';
    repeat match goal with
    | H : (_ <=? _)%float = true |- _ => apply leb_iff in H as (_ & _ & ?)
    | H : (_ <=? _)%float = false |- _ => apply leb_false_key in H; [|done..]
    end;
    apply leb_iff; (split; [done|split; [done|lia]]).
Qed.

Lemma passed_mono cfg x x' :
  (x <=? x')%float = true → passed cfg x <= passed cfg x'.
Proof.
  intros H. unfold passed.
  destruct (note_passage cfg <=? x)%float eqn:A,
    (note_passage cfg <=? x')%float eqn:A'; try lia.
  rewrite (leb_trans _ _ _ A H) in A'. done.
Qed.

Lemma passed_nan cfg x : is_nan x = true → passed cfg x = 0.
Proof.
  intros H. unfold passed.
  destruct (note_passage cfg <=? x)%float eqn:A; [|done].
  apply leb_iff in A as (_ & ? & _). congruence.
Qed.

Lemma passed_nonneg cfg x : 0 <= passed cfg x.
Proof. unfold passed. destruct (note_passage cfg <=? x)%float; lia. Qed.

Lemma clip_weak_mono cfg x x' :
  (note_passage cfg <=? 0)%float = false →
  weak_le x x' → not_below cfg (clip 0 20 x) (clip 0 20 x').
Proof.
  intros Hnp [H|[H|[H ->]]]; (split; [|split]).
  - rewrite (clip_nan _ _ _ H). apply weak_le_not_lt. by left.
  - rewrite (clip_nan _ _ _ H). congruence.
  - rewrite (clip_nan _ _ _ H), (passed_nan _ _ H). apply passed_nonneg.
  - apply weak_le_not_lt, weak_le_of_leb, clip_mono, H.
  - intros _ _. apply clip_mono, H.
  - apply passed_mono, clip_mono, H.
  - rewrite (clip_nan _ _ x' H).
    destruct (x' <? clip 0 20 neg_infinity)%float eqn:L; [|done].
    apply ltb_iff in L as (? & _). congruence.
  - rewrite (clip_nan _ _ x' H). congruence.
  - change (clip 0 20 neg_infinity) with 0%float. unfold passed at 1.
    rewrite Hnp. apply passed_nonneg.
Qed.

Lemma final_score_weak cfg s s' b :
  (note_passage cfg <=? 0)%float = false →
  weak_le s s' →
  not_below cfg (clip 0 20 (s + b)) (clip 0 20 (s' + b)).
Proof. intros Hnp H. by apply clip_weak_mono, weak_le_add_r. Qed.

(** C10. With positive finite weights and a positive threshold, raising
    one predictor of a row, the other two predictors and the noise being
    the same, never lowers the row's [Final_Exam_Score] (the new score is
    not less than the old one, and is greater or equal when neither is
    NaN) nor its [Passed_Course].  By [generate_rows] the rows of the result
    are [final_score] and [passed] of the rows of the input. *)
Theorem score_monotone cfg h p a b x x' :
  pos_finite (weight_hours cfg) →
  pos_finite (weight_prev cfg) →
  pos_finite (weight_attendance cfg) →
  (note_passage cfg <=? 0)%float = false →
  (x <=? x')%float = true →
  not_below cfg (final_score cfg x p a b) (final_score cfg x' p a b) ∧
  not_below cfg (final_score cfg h x a b) (final_score cfg h x' a b) ∧
  not_below cfg (final_score cfg h p x b) (final_score cfg h p x' b).
Proof.
  intros Wh Wp Wa Hnp Hx. apply weak_le_of_leb in Hx.
  unfold final_score, score_brut. split; [|split].
  - apply final_score_weak; [done|]. do 2 apply weak_le_add_r.
    by apply weak_le_add_l, weak_le_mul.
  - apply final_score_weak; [done|]. apply weak_le_add_r.
    by apply weak_le_add_l, weak_le_mul.
  - apply final_score_weak; [done|]. by apply weak_le_add_l, weak_le_mul.
Qed.

Lemma score_monotone_witness :
  not_below source_config
    (final_score source_config 2 50 80 0.3) (final_score source_config 6 50 80 0.3) ∧
  not_below source_config
    (final_score source_config 4 2 80 0.3) (final_score source_config 4 6 80 0.3) ∧
  not_below source_config
    (final_score source_config 4 50 2 0.3) (final_score source_config 4 50 6 0.3).
Proof.
  apply (score_monotone source_config 4 50 80 0.3 2 6);
    [exact I|exact I|exact I|reflexivity|reflexivity].
Defined.

(** Raising an integer cell raises its [float64] view, so the theorem above
    covers [int64] predictor columns as well. *)
Lemma of_int64_key z :
  is_nan (of_int64 z) = false ∧ fkey (of_int64 z) = SRND (z * 2 ^ K).
Proof.
  pose proof (binary_normalize_key z 0 false ltac:(lia)) as (V & N & Hk & _).
  unfold of_int64, fkey. rewrite is_nan_prim, Prim2SF_SF2Prim by exact V.
  split; [exact N|]. by rewrite Hk, Z.add_0_l.
Qed.

Lemma of_int64_mono z z' : z <= z' → (of_int64 z <=? of_int64 z')%float = true.
Proof.
  intros Hz. pose proof (of_int64_key z) as [N Hk].
  pose proof (of_int64_key z') as [N' Hk'].
  apply leb_iff. split; [done|]. split; [done|].
  rewrite Hk, Hk'. apply SRND_mono.
  pose proof (pow2_pos K ltac:(pose proof K_val; lia)). nia.
Qed.

(** ** The noise *)

Lemma unit_interval_between u : unit_interval u → between 0 1 u.
Proof. intros [H0 H1]. split; [done|by apply ltb_leb]. Qed.

Lemma between_self x : is_nan x = false → between x x x.
Proof. intros. split; by apply leb_refl. Qed.

(** Line 78 before the scaling: [u - 0.5] for a draw [u] of [0, 1). *)
Lemma centred_between u : unit_interval u → between (-0.5) 0.5 (u - 0.5).
Proof.
  intros Hu%unit_interval_between. rewrite sub_add_opp.
  apply (between_add 0 1 u (-0.5) (-0.5) (-0.5)); done.
Qed.

Lemma centred_finite u : unit_interval u → finite (u - 0.5).
Proof.
  intros [H1 H2]%centred_between. by apply (finite_between (-0.5) 0.5).
Qed.

Lemma bruit_between u :
  unit_interval u →
  between (- (bruit_amplitude source_config / 2))
    (bruit_amplitude source_config / 2) (bruit source_config u).
Proof.
  intros Hu%centred_between. unfold bruit. rewrite mul_comm.
  apply (between_mul 1.5 (-0.5) 0.5); done.
Qed.

(** With amplitude 0 the noise is a zero, of either sign. *)
Lemma bruit_zero cfg u :
  bruit_amplitude cfg = 0%float → unit_interval u →
  bruit cfg u = 0%float ∨ bruit cfg u = neg_zero.
Proof.
  intros Hamp Hu. unfold bruit. rewrite Hamp. by apply mul_zero_r, centred_finite.
Qed.

(** ** The raw score of a row with finite predictors *)

Lemma score_brut_finite h p a u :
  finite h → finite p → finite a → unit_interval u →
  finite (score_brut source_config h p a (bruit source_config u)).
Proof.
  intros Fh Fp Fa Hu. unfold score_brut.
  pose proof (between_mul (weight_hours source_config) _ _ _ I
                (finite_between_max h Fh)) as Bh.
  pose proof (between_mul (weight_prev source_config) _ _ _ I
                (finite_between_max p Fp)) as Bp.
  pose proof (between_mul (weight_attendance source_config) _ _ _ I
                (finite_between_max a Fa)) as Ba.
  pose proof (bruit_between u Hu) as Bn.
  pose proof (between_self (base_score source_config) eq_refl) as B0.
  pose proof (between_add _ _ _ _ _ _ B0 Bh eq_refl eq_refl eq_refl eq_refl) as B1.
  pose proof (between_add _ _ _ _ _ _ B1 Bp eq_refl eq_refl eq_refl eq_refl) as B2.
  pose proof (between_add _ _ _ _ _ _ B2 Ba eq_refl eq_refl eq_refl eq_refl) as B3.
  pose proof (between_add _ _ _ _ _ _ B3 Bn eq_refl eq_refl eq_refl eq_refl) as [B4 B5].
  eapply finite_between; [| |exact B4|exact B5]; reflexivity.
Qed.

(** C1 (as amended). In the table [generate] returns under the script's
    configuration, every cell of [Final_Exam_Score] is either NaN or within
    [0.0, 20.0]; it is within [0.0, 20.0] whenever the three predictor
    cells of its row are finite numbers and the draw lies in [0, 1). *)
Theorem final_score_clamped draw data out :
  generate source_config draw data = Ok out →
  ∃ h p a score,
    operand "Hours_Studied" data = Ok h ∧
    operand "Previous_Score" data = Ok p ∧
    operand "Attendance_Rate" data = Ok a ∧
    get_col "Final_Exam_Score" out = Some (Float64 score) ∧
    ∀ i x, score !! i = Some x →
      (is_nan x = true ∨ between 0 20 x) ∧
      ∀ hi pi ai,
        h !! i = Some hi → p !! i = Some pi → a !! i = Some ai →
        finite hi → finite pi → finite ai → unit_interval (draw i) →
        between 0 20 x.
Proof.
  intros (brut & (h & p & a & Hh & Hp & Ha & ->)%brut_inv & ->)%generate_inv.
  exists h, p, a. eexists. repeat (split; [done|]).
  split; [apply targets_score|].
  intros i x (r & -> & Hr)%list_lookup_fmap_Some. split.
  - destruct (is_nan r) eqn:N.
    + left. by rewrite clip_nan.
    + right. by apply clip_between.
  - intros hi pi ai Hhi Hpi Hai Fh Fp Fa Hu.
    apply raw_scores_lookup in Hr as (hi' & pi' & ai' & ? & ? & ? & _ & ->).
    simplify_eq. apply clip_between, finite_not_nan.
    by apply score_brut_finite.
Qed.

Lemma final_score_clamped_witness :
  ∃ h p a score,
    operand "Hours_Studied" three_students = Ok h ∧
    operand "Previous_Score" three_students = Ok p ∧
    operand "Attendance_Rate" three_students = Ok a ∧
    get_col "Final_Exam_Score" three_students_out = Some (Float64 score) ∧
    ∀ i x, score !! i = Some x →
      (is_nan x = true ∨ between 0 20 x) ∧
      ∀ hi pi ai,
        h !! i = Some hi → p !! i = Some pi → a !! i = Some ai →
        finite hi → finite pi → finite ai → unit_interval 0.5 →
        between 0 20 x.
Proof.
  apply (final_score_clamped (λ _, 0.5%float) three_students).
  vm_compute. reflexivity.
Defined.

(** C1, counterexample. [missing_cell] passes the column check; the score
    of its second row is NaN, which is neither at least 0.0 nor at most
    20.0. *)
Lemma final_score_clamped_counterexample :
  forallb (λ col, has_column col missing_cell) required_predictors = true ∧
  ∃ out x,
    generate source_config (λ _, 0.5%float) missing_cell = Ok out ∧
    get_col "Final_Exam_Score" out = Some (Float64 [20%float; x]) ∧
    (0 <=? x)%float = false ∧ (x <=? 20)%float = false.
Proof.
  split; [reflexivity|]. eexists _, _. split; [vm_compute; reflexivity|].
  split; [reflexivity|]. split; reflexivity.
Qed.



Lemma base_sum_not_neg_zero (base x y z : float) :
  base ≠ neg_zero → (base + x + y + z)%float ≠ neg_zero.
Proof.
  intros Hb H.
  apply add_eq_neg_zero in H as [H _]. apply add_eq_neg_zero in H as [H _].
  apply add_eq_neg_zero in H as [H _]. done.
Qed.

Lemma add_signed_zero s n :
  s ≠ neg_zero → n = 0%float ∨ n = neg_zero → (s + n)%float = s.
Proof.
  intros Hs [-> | ->]; [by apply add_zero_r|apply add_neg_zero_r].
Qed.

(** With amplitude 0 the raw score of a row no longer depends on the draw. *)
Lemma score_brut_without_noise cfg h p a u u' :
  bruit_amplitude cfg = 0%float → base_score cfg ≠ neg_zero →
  unit_interval u → unit_interval u' →
  score_brut cfg h p a (bruit cfg u) = score_brut cfg h p a (bruit cfg u').
Proof.
  intros Hamp Hbase Hu Hu'. unfold score_brut.
  rewrite (add_signed_zero _ (bruit cfg u)), (add_signed_zero _ (bruit cfg u'));
    auto using base_sum_not_neg_zero, bruit_zero.
Qed.

Lemma raw_scores_without_noise cfg draw draw' n h p a :
  bruit_amplitude cfg = 0%float → base_score cfg ≠ neg_zero →
  (∀ i, unit_interval (draw i)) → (∀ i, unit_interval (draw' i)) →
  raw_scores cfg h p a (bruit_aleatoire cfg draw n)
  = raw_scores cfg h p a (bruit_aleatoire cfg draw' n).
Proof.
  intros Hamp Hbase Hd Hd'. apply list_eq. intros i. apply option_eq. intros r.
  rewrite !raw_scores_lookup.
  split; intros (hi & pi & ai & ? & ? & ? & ? & ->); exists hi, pi, ai;
    repeat (split; [done|]); by apply score_brut_without_noise.
Qed.

Lemma base_score_source_not_neg_zero amp :
  base_score (with_amplitude amp source_config) ≠ neg_zero.
Proof. intros H%(f_equal Prim2SF). vm_compute in H. discriminate H. Qed.

(** C9. With [bruit_amplitude] set to 0 and the rest of the script's
    configuration unchanged, two runs from the same filesystem and the same
    destination device end the same way and leave the same filesystem,
    whatever the two sequences of draws of [0, 1). *)
Theorem zero_amplitude_deterministic draw draw' fault (fs : filesystem) :
  (∀ i, unit_interval (draw i)) →
  (∀ i, unit_interval (draw' i)) →
  script (with_amplitude 0 source_config) draw fault fs
  = script (with_amplitude 0 source_config) draw' fault fs.
Proof.
  intros Hd Hd'. unfold script.
  destruct (fs !! _) as [f|]; [|done].
  destruct (read_csv f _) as [data|]; [|done].
  destruct (negb _); [done|].
  assert (Hgen : generate (with_amplitude 0 source_config) draw data
                 = generate (with_amplitude 0 source_config) draw' data).
  { unfold generate, Final_Exam_Score_brut, bind.
    destruct (operand "Hours_Studied" data) as [h|]; [|done].
    destruct (operand "Previous_Score" data) as [p|]; [|done].
    destruct (operand "Attendance_Rate" data) as [a|]; [|done].
    by rewrite (raw_scores_without_noise _ draw draw')
      by auto using base_score_source_not_neg_zero. }
  by rewrite Hgen.
Qed.

Lemma zero_amplitude_deterministic_witness :
  script (with_amplitude 0 source_config) (λ _, 0.1%float) NoFault
    {[ "mockaroo_predicteurs.csv" := Delimited three_students ]}
  = script (with_amplitude 0 source_config) (λ _, 0.9%float) NoFault
      {[ "mockaroo_predicteurs.csv" := Delimited three_students ]}.
Proof.
  apply zero_amplitude_deterministic; intros i; split; reflexivity.
Defined.

(** * Further properties of the script *)

(** ** The column check protects the computation *)

Lemma has_column_get_col c data :
  has_column c data = true → ∃ s, get_col c data = Some s.
Proof.
  unfold has_column, column_names, get_col. intros H%bool_decide_eq_true.
  induction (columns data) as [|[c0 s0] cs IH]; cbn in *.
  - by apply elem_of_nil in H.
  - destruct (String.eqb_spec c0 c) as [->|Hne]; [by eexists|].
    apply IH. apply elem_of_cons in H as [H|H]; [congruence|done].
Qed.

Lemma get_col_has_column c data s :
  get_col c data = Some s → has_column c data = true.
Proof.
  intros H. apply bool_decide_eq_true. by eapply assoc_get_Some_names.
Qed.

Lemma as_float64_raise s e : as_float64 s = Raise e → e = TypeError.
Proof. destruct s as [l|l|l|[|? l]]; cbn; congruence. Qed.

Lemma operand_raise c data e :
  has_column c data = true → operand c data = Raise e → e = TypeError.
Proof.
  intros (s & Hs)%has_column_get_col. unfold operand. rewrite Hs.
  apply as_float64_raise.
Qed.

Lemma validated_columns data :
  forallb (λ col, has_column col data) required_predictors = true →
  has_column "Hours_Studied" data = true ∧
  has_column "Previous_Score" data = true ∧
  has_column "Attendance_Rate" data = true.
Proof. cbn. rewrite !andb_true_iff. tauto. Qed.

Lemma generate_raise cfg draw data e :
  forallb (λ col, has_column col data) required_predictors = true →
  generate cfg draw data = Raise e → e = TypeError.
Proof.
  intros (Hh & Hp & Ha)%validated_columns.
  unfold generate, Final_Exam_Score_brut, bind.
  destruct (operand "Hours_Studied" data) eqn:Eh;
    [|intros [= <-]; exact (operand_raise _ _ _ Hh Eh)].
  destruct (operand "Previous_Score" data) eqn:Ep;
    [|intros [= <-]; exact (operand_raise _ _ _ Hp Ep)].
  destruct (operand "Attendance_Rate" data) eqn:Ea;
    [|intros [= <-]; exact (operand_raise _ _ _ Ha Ea)].
  done.
Qed.

(** X1. No run ends on an uncaught [KeyError]: when an exception escapes
    lines 78-97, the table had passed the column check (lines 64-69), each
    lookup of lines 82-84 found its column, and the exception is not the
    [KeyError] of a lookup. *)
Theorem never_key_error cfg draw fault (fs : filesystem) e :
  (script cfg draw fault fs).1 = Uncaught e →
  e ≠ KeyError ∧
  ∃ data,
    fs !! input_filename cfg = Some (Delimited data) ∧
    ∀ c, c ∈ required_predictors → is_Some (get_col c data).
Proof.
  unfold script.
  destruct (fs !! input_filename cfg) as [[|data]|]; cbn [read_csv]; [done| |done].
  destruct (forallb _ required_predictors) eqn:Hall; cbn [negb]; [|done].
  destruct (generate cfg draw data) as [out|e'] eqn:Hgen.
  - by destruct (to_csv _ _ _ _ _ _) as [[] ?].
  - cbn. intros [= <-]. split.
    + by rewrite (generate_raise _ _ _ _ Hall Hgen).
    + exists data. split; [done|]. intros c Hc.
      rewrite forallb_forall in Hall.
      apply list_elem_of_In, Hall, has_column_get_col in Hc as [s ->]. by eexists.
Qed.

Lemma never_key_error_witness :
  (script source_config (λ _, 0.5%float) NoFault
     {[ "mockaroo_predicteurs.csv" := Delimited text_hours ]}).1
  = Uncaught TypeError ∧
  TypeError ≠ KeyError ∧
  ∃ data,
    ({[ "mockaroo_predicteurs.csv" := Delimited text_hours ]} : filesystem)
      !! input_filename source_config = Some (Delimited data) ∧
    ∀ c, c ∈ required_predictors → is_Some (get_col c data).
Proof.
  split; [reflexivity|].
  apply (never_key_error source_config (λ _, 0.5%float) NoFault
           {[ "mockaroo_predicteurs.csv" := Delimited text_hours ]}).
  reflexivity.
Defined.

(** X2. When the table has the three predictors but one of them is a text
    column with at least one row, the arithmetic of lines 81-85 raises
    [TypeError], which nothing catches: the run ends there and the
    filesystem is left as it was. *)
Theorem text_predictor_raises cfg draw fault (fs : filesystem) data c x xs :
  fs !! input_filename cfg = Some (Delimited data) →
  forallb (λ col, has_column col data) required_predictors = true →
  c ∈ required_predictors →
  get_col c data = Some (Object (x :: xs)) →
  script cfg draw fault fs = (Uncaught TypeError, fs).
Proof.
  intros Hfs Hall Hc Hs. rewrite (script_loaded _ _ _ _ _ Hfs), Hall. cbn [negb].
  assert (Hop : operand c data = Raise TypeError)
    by (unfold operand; by rewrite Hs).
  destruct (generate cfg draw data) as [out|e] eqn:Hgen.
  - exfalso. apply generate_inv in Hgen as (brut & Hb & _).
    apply brut_inv in Hb as (h & p & a & Hh & Hp & Ha & _).
    unfold required_predictors in Hc.
    rewrite !elem_of_cons in Hc. destruct Hc as [->|[->|[->|Hc]]];
      [congruence..|by apply elem_of_nil in Hc].
  - by rewrite (generate_raise _ _ _ _ Hall Hgen).
Qed.

Lemma text_predictor_raises_witness :
  script source_config (λ _, 0.5%float) NoFault
    {[ "mockaroo_predicteurs.csv" := Delimited text_hours ]}
  = (Uncaught TypeError, {[ "mockaroo_predicteurs.csv" := Delimited text_hours ]}).
Proof.
  apply (text_predictor_raises source_config (λ _, 0.5%float) NoFault _
           text_hours "Hours_Studied" "ten" ["3"]).
  - reflexivity.
  - reflexivity.
  - compute_done.
  - reflexivity.
Defined.

(** ** What a run touches *)

(** X3. Whatever happens, a run changes no path other than
    [output_filename]: in particular the input file is kept when the two
    names differ. *)
Theorem other_paths_untouched cfg draw fault (fs : filesystem) path :
  path ≠ output_filename cfg →
  (script cfg draw fault fs).2 !! path = fs !! path.
Proof.
  intros Hne. unfold script.
  destruct (fs !! input_filename cfg) as [[|data]|]; cbn [read_csv]; [done| |done].
  destruct (negb _); [done|].
  destruct (generate cfg draw data) as [out|e]; [|done].
  destruct fault; cbn [to_csv snd]; by rewrite ?lookup_insert_ne.
Qed.

Lemma other_paths_untouched_witness :
  (script source_config (λ _, 0.5%float) NoFault
     {[ "mockaroo_predicteurs.csv" := Delimited three_students ]}).2
    !! "mockaroo_predicteurs.csv"
  = ({[ "mockaroo_predicteurs.csv" := Delimited three_students ]} : filesystem)
      !! "mockaroo_predicteurs.csv".
Proof. apply other_paths_untouched. discriminate. Defined.

(** X4. A run ends on the load error of lines 58-61 exactly when the input
    path exists and [read_csv] cannot parse it; nothing is computed and the
    filesystem is left as it was. *)
Theorem load_error_gate cfg draw fault (fs fs' : filesystem) :
  script cfg draw fault fs = (ExitLoadError, fs') ↔
  fs !! input_filename cfg = Some Unparseable ∧ fs' = fs.
Proof.
  unfold script.
  destruct (fs !! input_filename cfg) as [[|data]|]; cbn [read_csv].
  - split; [by intros [= <-]|by intros [_ ->]].
  - split; [|by intros [[=] _]].
    destruct (negb _); [done|].
    destruct (generate cfg draw data) as [out|e]; [|done].
    by destruct (to_csv _ _ _ _ _ _) as [[] ?].
  - split; [done|by intros [[=] _]].
Qed.

(** ** Missing cells *)

Lemma is_nan_mul_l x y : is_nan x = true → is_nan (x * y) = true.
Proof. rewrite mul_comm. apply is_nan_mul_r. Qed.

(** A NaN predictor makes the raw score NaN, whatever the configuration
    and the noise. *)
Lemma score_brut_nan cfg h p a b :
  is_nan h = true ∨ is_nan p = true ∨ is_nan a = true →
  is_nan (score_brut cfg h p a b) = true.
Proof.
  unfold score_brut. intros [H|[H|H]].
  - do 3 apply is_nan_add_l. by apply is_nan_add_r, is_nan_mul_r.
  - do 2 apply is_nan_add_l. by apply is_nan_add_r, is_nan_mul_r.
  - apply is_nan_add_l. by apply is_nan_add_r, is_nan_mul_r.
Qed.

(** X5. In the table [generate] returns, a row with a missing (NaN) cell
    under one of the three predictors has a NaN [Final_Exam_Score] and
    [Passed_Course] 0, whatever the configuration and the draw: the clip of
    line 89 keeps the NaN and the comparison of line 94 is false on it. *)
Theorem missing_cell_fails cfg draw data out :
  generate cfg draw data = Ok out →
  ∃ h p a score flag,
    operand "Hours_Studied" data = Ok h ∧
    operand "Previous_Score" data = Ok p ∧
    operand "Attendance_Rate" data = Ok a ∧
    get_col "Final_Exam_Score" out = Some (Float64 score) ∧
    get_col "Passed_Course" out = Some (Int64 flag) ∧
    ∀ i hi pi ai,
      (i < nrows data)%nat →
      h !! i = Some hi → p !! i = Some pi → a !! i = Some ai →
      is_nan hi = true ∨ is_nan pi = true ∨ is_nan ai = true →
      ∃ x, score !! i = Some x ∧ is_nan x = true ∧ flag !! i = Some 0.
Proof.
  intros (brut & (h & p & a & Hh & Hp & Ha & ->)%brut_inv & ->)%generate_inv.
  exists h, p, a. eexists _, _. repeat (split; [done|]).
  split; [apply targets_score|]. split; [apply targets_passed|].
  intros i hi pi ai Hi Hhi Hpi Hai Hnan.
  set (r := score_brut cfg hi pi ai (bruit cfg (draw i))).
  assert (Hr : raw_scores cfg h p a (bruit_aleatoire cfg draw (nrows data)) !! i
               = Some r).
  { apply raw_scores_lookup. by exists hi, pi, ai. }
  assert (Nr : is_nan r = true) by by apply score_brut_nan.
  exists (clip 0 20 r). split; [by apply list_lookup_fmap_Some_2|].
  rewrite (clip_nan _ _ _ Nr). split; [done|].
  rewrite !list_lookup_fmap, Hr. cbn.
  by rewrite (clip_nan _ _ _ Nr), (passed_nan cfg r Nr).
Qed.

Lemma missing_cell_fails_witness :
  ∃ h p a score flag,
    operand "Hours_Studied" missing_cell = Ok h ∧
    operand "Previous_Score" missing_cell = Ok p ∧
    operand "Attendance_Rate" missing_cell = Ok a ∧
    get_col "Final_Exam_Score" missing_cell_out = Some (Float64 score) ∧
    get_col "Passed_Course" missing_cell_out = Some (Int64 flag) ∧
    ∀ i hi pi ai,
      (i < nrows missing_cell)%nat →
      h !! i = Some hi → p !! i = Some pi → a !! i = Some ai →
      is_nan hi = true ∨ is_nan pi = true ∨ is_nan ai = true →
      ∃ x, score !! i = Some x ∧ is_nan x = true ∧ flag !! i = Some 0.
Proof.
  apply (missing_cell_fails source_config (λ _, 0.5%float) missing_cell).
  reflexivity.
Defined.

(** ** Numeric tables always go through *)

Lemma numeric_as_float64 s : numeric s = true → ∃ xs, as_float64 s = Ok xs.
Proof. destruct s; cbn; try discriminate; eauto. Qed.

(** X6. When the input loads as a table whose three predictor columns are
    numeric ([float64], [int64] or [bool]) with one cell per row, and the
    destination accepts the export, the run finishes: the destination
    holds a table with the rows of the input and the two targets, one
    cell per row each, and nothing else changes. *)
Theorem numeric_table_finishes cfg draw (fs : filesystem) data :
  fs !! input_filename cfg = Some (Delimited data) →
  wf_frame data →
  (∀ c, c ∈ required_predictors → ∃ s, get_col c data = Some s ∧ numeric s = true) →
  ∃ out score flag,
    script cfg draw NoFault fs
    = (Finished, <[output_filename cfg := Delimited out]> fs) ∧
    nrows out = nrows data ∧
    get_col "Final_Exam_Score" out = Some (Float64 score) ∧
    get_col "Passed_Course" out = Some (Int64 flag) ∧
    length score = nrows data ∧ length flag = nrows data.
Proof.
  intros Hfs Hwf Hnum.
  assert (Hop : ∀ c, c ∈ required_predictors →
            has_column c data = true ∧ ∃ xs, operand c data = Ok xs).
  { intros c (s & Hs & Hn)%Hnum. split; [by eapply get_col_has_column|].
    unfold operand. rewrite Hs. by apply numeric_as_float64. }
  destruct (Hop "Hours_Studied" ltac:(compute_done)) as [Vh [h Hh]].
  destruct (Hop "Previous_Score" ltac:(compute_done)) as [Vp [p Hp]].
  destruct (Hop "Attendance_Rate" ltac:(compute_done)) as [Va [a Ha]].
  pose proof (generate_total cfg draw data h p a Hh Hp Ha) as Hgen.
  set (brut := raw_scores cfg h p a (bruit_aleatoire cfg draw (nrows data))) in *.
  assert (Hlen : length brut = nrows data).
  { apply raw_scores_length;
      eauto using operand_length, bruit_aleatoire_length. }
  exists (csv_table false (targets cfg brut data)). eexists _, _.
  split; [|split; [done|]].
  - rewrite (script_loaded _ _ _ _ _ Hfs). cbn [forallb required_predictors].
    rewrite Vh, Vp, Va. cbn [andb negb]. by rewrite Hgen.
  - split; [apply targets_score|]. split; [apply targets_passed|].
    by rewrite !length_fmap.
Qed.

Lemma numeric_table_finishes_witness :
  ∃ out score flag,
    script source_config (λ _, 0.5%float) NoFault
      {[ "mockaroo_predicteurs.csv" := Delimited three_students ]}
    = (Finished,
       <[output_filename source_config := Delimited out]>
         {[ "mockaroo_predicteurs.csv" := Delimited three_students ]}) ∧
    nrows out = nrows three_students ∧
    get_col "Final_Exam_Score" out = Some (Float64 score) ∧
    get_col "Passed_Course" out = Some (Int64 flag) ∧
    length score = nrows three_students ∧ length flag = nrows three_students.
Proof.
  apply numeric_table_finishes.
  - reflexivity.
  - exact three_students_wf.
  - intros c Hc. unfold required_predictors in Hc.
    rewrite !elem_of_cons in Hc.
    destruct Hc as [->|[->|[->|Hc]]]; [by eexists..|by apply elem_of_nil in Hc].
Defined.


(** ** Clamping and the pass mark *)

Lemma passed_clip cfg x :
  (0 <? note_passage cfg)%float = true →
  (note_passage cfg <=? 20)%float = true →
  passed cfg (clip 0 20 x) = passed cfg x.
Proof.
  intros H0 H20. unfold passed, clip.
  apply ltb_iff in H0 as (_ & Nt & K0).
  pose proof H20 as (_ & _ & K20)%leb_iff.
  pose proof (eq_refl : (0 <=? 20)%float = true) as (_ & _ & K)%leb_iff.
  destruct (is_nan x) eqn:Nx; cbn [orb]; [done|].
  destruct (0 <=? x)%float eqn:Lx, (x <=? 20)%float eqn:Ux; [done|..].
  - apply leb_false_key in Ux; [|done..]. rewrite H20.
    assert ((note_passage cfg <=? x)%float = true) as ->; [|done].
    apply leb_iff. repeat split; [done..|lia].
  - apply leb_false_key in Lx; [|done..].
    destruct (note_passage cfg <=? 0)%float eqn:E0;
      [apply leb_iff in E0 as (_ & _ & E0); lia|].
    destruct (note_passage cfg <=? x)%float eqn:Ex;
      [apply leb_iff in Ex as (_ & _ & Ex); lia|done].
  - apply leb_false_key in Lx; [|done..]. apply leb_false_key in Ux; [|done..].
    lia.
Qed.

(** X7. With a pass mark above 0 and at most 20, clamping (line 89) never
    changes the outcome line 94 derives: [Passed_Course] is what comparing
    the raw scores of lines 81-85 with the pass mark would give, on every
    row, missing and infinite scores included. *)
Theorem clamp_keeps_outcome cfg draw data out :
  (0 <? note_passage cfg)%float = true →
  (note_passage cfg <=? 20)%float = true →
  generate cfg draw data = Ok out →
  ∃ brut,
    Final_Exam_Score_brut cfg draw data = Ok brut ∧
    get_col "Passed_Course" out = Some (Int64 (passed cfg <$> brut)).
Proof.
  intros H0 H20 (brut & Hb & ->)%generate_inv. exists brut. split; [done|].
  rewrite targets_passed. do 2 f_equal.
  rewrite <-list_fmap_compose. apply list_fmap_ext. intros i x _. cbn.
  by apply passed_clip.
Qed.

Lemma clamp_keeps_outcome_witness :
  ∃ brut,
    Final_Exam_Score_brut source_config (λ _, 0.5%float) three_students = Ok brut ∧
    get_col "Passed_Course" three_students_out
    = Some (Int64 (passed source_config <$> brut)).
Proof.
  apply (clamp_keeps_outcome source_config (λ _, 0.5%float) three_students);
    reflexivity.
Defined.

(** ** How far the noise reaches *)

Lemma add_finite_r_not_nan x y :
  is_nan x = false → finite y → is_nan (x + y) = false.
Proof.
  intros Nx (Ny & Ky)%finite_key.
  destruct (add_key x y Nx Ny) as [Hn _].
  destruct (is_nan (x + y)); [|done].
  destruct Hn as [Hn _]. specialize (Hn eq_refl). lia.
Qed.

Lemma bruit_source_finite u : unit_interval u → finite (bruit source_config u).
Proof.
  intros [Blo Bhi]%bruit_between.
  eapply finite_between; [| |exact Blo|exact Bhi]; reflexivity.
Qed.

Lemma passed_final_score_source h p a b :
  passed source_config (final_score source_config h p a b)
  = passed source_config (noiseless_score source_config h p a + b).
Proof. unfold final_score. by rewrite passed_clip. Qed.

(** X8. The noise of line 78 stays within half the amplitude on either
    side of zero, for every positive amplitude. *)
Theorem noise_range cfg u :
  pos_finite (bruit_amplitude cfg) →
  unit_interval u →
  between (-0.5 * bruit_amplitude cfg) (0.5 * bruit_amplitude cfg) (bruit cfg u).
Proof.
  intros Hamp Hu. unfold bruit.
  rewrite !(mul_comm _ (bruit_amplitude cfg)).
  by apply between_mul, centred_between.
Qed.

Lemma noise_range_witness :
  between (-0.5 * bruit_amplitude source_config)
    (0.5 * bruit_amplitude source_config) (bruit source_config 0.25).
Proof. apply noise_range; [exact I|split; reflexivity]. Defined.

(** X9. With the constants of the script, the noise of line 78 cannot fail
    a row whose noiseless sum (lines 81-84) is at least the pass mark once
    half the amplitude is taken off: the row passes for every draw. *)
Theorem noise_cannot_fail h p a u :
  unit_interval u →
  (note_passage source_config
   <=? noiseless_score source_config h p a - bruit_amplitude source_config / 2)%float
  = true →
  passed source_config (final_score source_config h p a (bruit source_config u)) = 1.
Proof.
  intros Hu H. rewrite passed_final_score_source.
  pose proof (bruit_between u Hu) as [Blo _].
  pose proof (bruit_source_finite u Hu) as Fb.
  set (s := noiseless_score source_config h p a) in *.
  rewrite sub_add_opp in H.
  pose proof H as (_ & N1 & _)%leb_iff.
  destruct (is_nan s) eqn:Ns; [by rewrite (is_nan_add_l _ _ Ns) in N1|].
  pose proof (add_finite_r_not_nan s _ Ns Fb) as N2.
  unfold passed.
  by rewrite (leb_trans _ _ _ H (add_mono _ _ _ _ (leb_refl s Ns) Blo N1 N2)).
Qed.

Lemma noise_cannot_fail_witness :
  passed source_config
    (final_score source_config 10 80 90 (bruit source_config 0.25)) = 1.
Proof. apply noise_cannot_fail; [split|]; reflexivity. Defined.

(** X10. Nor can it rescue a row whose noiseless sum stays below the pass
    mark once half the amplitude is added: the row fails for every draw. *)
Theorem noise_cannot_pass h p a u :
  unit_interval u →
  (noiseless_score source_config h p a + bruit_amplitude source_config / 2
   <? note_passage source_config)%float = true →
  passed source_config (final_score source_config h p a (bruit source_config u)) = 0.
Proof.
  intros Hu H. rewrite passed_final_score_source.
  pose proof (bruit_between u Hu) as [_ Bhi].
  pose proof (bruit_source_finite u Hu) as Fb.
  set (s := noiseless_score source_config h p a) in *.
  apply ltb_iff in H as (N1 & _ & K1).
  destruct (is_nan s) eqn:Ns; [by rewrite (is_nan_add_l _ _ Ns) in N1|].
  pose proof (add_finite_r_not_nan s _ Ns Fb) as N2.
  pose proof (add_mono _ _ _ _ (leb_refl s Ns) Bhi N2 N1) as (_ & _ & K2)%leb_iff.
  unfold passed.
  destruct (note_passage source_config <=? _)%float eqn:E; [|done].
  apply leb_iff in E as (_ & _ & E). lia.
Qed.

Lemma noise_cannot_pass_witness :
  passed source_config
    (final_score source_config 2 20 50 (bruit source_config 0.75)) = 0.
Proof. apply noise_cannot_pass; [split|]; reflexivity. Defined.

(** X11. A larger draw never lowers a row: with a positive amplitude and
    the other inputs fixed, the final score and the outcome under the
    larger draw are not below those under the smaller one. *)
Theorem draw_monotone cfg h p a u u' :
  pos_finite (bruit_amplitude cfg) →
  (note_passage cfg <=? 0)%float = false →
  (u <=? u')%float = true →
  not_below cfg (final_score cfg h p a (bruit cfg u))
    (final_score cfg h p a (bruit cfg u')).
Proof.
  intros Hamp Hnp Hu. unfold final_score, score_brut, bruit.
  apply clip_weak_mono; [done|]. apply weak_le_add_l.
  rewrite !(mul_comm _ (bruit_amplitude cfg)). apply weak_le_mul; [done|].
  rewrite !sub_add_opp. by apply weak_le_add_r, weak_le_of_leb.
Qed.

Lemma draw_monotone_witness :
  not_below source_config
    (final_score source_config 10 80 90 (bruit source_config 0.25))
    (final_score source_config 10 80 90 (bruit source_config 0.75)).
Proof. apply draw_monotone; [exact I|reflexivity..]. Defined.

(** X12. Line 78 takes [len(data)] draws and no more: two generators that
    agree on the first [nrows data] draws give the same result. *)
Theorem draws_used cfg draw draw' data :
  (∀ i, (i < nrows data)%nat → draw i = draw' i) →
  generate cfg draw data = generate cfg draw' data.
Proof.
  intros H. unfold generate, Final_Exam_Score_brut.
  replace (bruit_aleatoire cfg draw' (nrows data))
    with (bruit_aleatoire cfg draw (nrows data)); [done|].
  unfold bruit_aleatoire, np_random_rand. f_equal.
  apply list_eq. intros i. rewrite !list_lookup_fmap.
  destruct (seq 0 (nrows data) !! i) as [j|] eqn:Hj; [|done]. cbn.
  apply lookup_seq in Hj as [-> Hi]. f_equal. by apply H.
Qed.

Lemma draws_used_witness :
  generate source_config (λ _, 0.5%float) three_students
  = generate source_config (λ i, if (i <? 3)%nat then 0.5 else 0.25)%float
      three_students.
Proof.
  apply draws_used. intros i Hi. cbn in Hi.
  destruct (Nat.ltb_spec i 3); [reflexivity|lia].
Defined.

(** ** The labels of the output *)

Section Labels.
Context (c : string).

Lemma assoc_set_names s cs :
  (assoc_set c s cs).*1 = if bool_decide (c ∈ cs.*1) then cs.*1 else cs.*1 ++ [c].
Proof.
  induction cs as [|[c0 s0] cs IH]; cbn; [done|].
  destruct (String.eqb_spec c0 c) as [->|Hne]; cbn.
  - by rewrite bool_decide_eq_true_2 by left.
  - rewrite IH, (bool_decide_ext (c ∈ c0 :: cs.*1) (c ∈ cs.*1));
      [by destruct (bool_decide _)|].
    rewrite elem_of_cons. split; [intros [E|?]; [congruence|done]|by right].
Qed.

Lemma names_set_other c' (ns : list string) :
  c' ≠ c →
  bool_decide (c' ∈ (if bool_decide (c ∈ ns) then ns else ns ++ [c]))
  = bool_decide (c' ∈ ns).
Proof.
  intros Hne. apply bool_decide_ext. destruct (bool_decide _); [done|].
  rewrite elem_of_app, list_elem_of_singleton.
  split; [intros [?|?]; [done|congruence]|by left].
Qed.

Lemma filter_names cs :
  (List.filter (λ x : string * Series, negb (String.eqb x.1 c)) cs).*1
  = List.filter (λ n, negb (String.eqb n c)) cs.*1.
Proof.
  induction cs as [|[c0 s0] cs IH]; cbn; [done|].
  destruct (negb _); cbn; by rewrite IH.
Qed.

Lemma NoDup_assoc_set s cs : NoDup cs.*1 → NoDup (assoc_set c s cs).*1.
Proof.
  intros H. rewrite assoc_set_names. case_bool_decide; [done|].
  apply NoDup_app. split; [done|]. split; [|apply NoDup_singleton].
  by intros x Hx ->%list_elem_of_singleton.
Qed.

Lemma NoDup_drop cs :
  NoDup cs.*1 → NoDup (List.filter (λ x : string * Series, negb (String.eqb x.1 c)) cs).*1.
Proof.
  rewrite filter_names. induction 1 as [|n ns Hn _ IH]; cbn; [constructor|].
  destruct (negb _); [|done]. constructor; [|done].
  intros [Hin _]%list_elem_of_In%List.filter_In. by apply list_elem_of_In in Hin.
Qed.

Lemma assoc_set_same s cs : assoc_get c cs = Some s → assoc_set c s cs = cs.
Proof.
  induction cs as [|[c0 s0] cs IH]; cbn; [done|].
  destruct (String.eqb c0 c); [by intros [= ->]|]. intros H. by rewrite IH.
Qed.

Lemma assoc_set_app s cs t :
  c ∈ cs.*1 → assoc_set c s (cs ++ t) = assoc_set c s cs ++ t.
Proof.
  induction cs as [|[c0 s0] cs IH]; cbn; [by intros ?%elem_of_nil|].
  destruct (String.eqb_spec c0 c) as [->|Hne]; [done|].
  intros H. rewrite IH; [done|].
  apply elem_of_cons in H as [E|H]; [congruence|done].
Qed.

End Labels.

(** X13. The labels of the generated table, in order: those of the input
    without [Final_Exam_Score_brut], then [Final_Exam_Score] and
    [Passed_Course] where the input does not carry them already (a label
    the input carries keeps its place). *)
Theorem output_labels cfg draw data out :
  generate cfg draw data = Ok out →
  column_names out =
  List.filter (λ n, negb (String.eqb n "Final_Exam_Score_brut")) (column_names data)
  ++ (if has_column "Final_Exam_Score" data then [] else ["Final_Exam_Score"])
  ++ (if has_column "Passed_Course" data then [] else ["Passed_Course"]).
Proof.
  intros (brut & _ & ->)%generate_inv.
  unfold targets, drop_col, set_col, has_column, column_names. cbn.
  rewrite filter_names, !assoc_set_names.
  rewrite !names_set_other by done.
  generalize ((columns data).*1). intros ns.
  destruct (bool_decide ("Final_Exam_Score_brut" ∈ ns)),
    (bool_decide ("Final_Exam_Score" ∈ ns)), (bool_decide ("Passed_Course" ∈ ns));
    rewrite ?List.filter_app; cbn; by rewrite ?app_nil_r, <-?app_assoc.
Qed.

Lemma output_labels_witness :
  column_names three_students_out =
  List.filter (λ n, negb (String.eqb n "Final_Exam_Score_brut"))
    (column_names three_students)
  ++ (if has_column "Final_Exam_Score" three_students then []
      else ["Final_Exam_Score"])
  ++ (if has_column "Passed_Course" three_students then [] else ["Passed_Course"]).
Proof.
  apply (output_labels source_config (λ _, 0.5%float)). vm_compute. reflexivity.
Defined.

(** X14. The generated table is a frame again: when the input has unique
    labels and one cell per row in every column, so has the output. *)
Theorem generate_wf cfg draw data out :
  wf_frame data → generate cfg draw data = Ok out → wf_frame out.
Proof.
  intros Hwf (brut & Hb & ->)%generate_inv.
  pose proof (brut_length _ _ _ _ Hwf Hb) as Hlen.
  destruct Hwf as [Hnd Hall]. split.
  - unfold targets, drop_col, set_col, column_names. cbn.
    by do 3 (try apply NoDup_drop; apply NoDup_assoc_set).
  - exact (targets_lengths cfg brut data Hlen Hall).
Qed.

Lemma generate_wf_witness : wf_frame three_students_out.
Proof.
  apply (generate_wf source_config (λ _, 0.5%float) three_students).
  - split; [compute_done|repeat constructor].
  - vm_compute. reflexivity.
Defined.

Lemma targets_fixed cfg brut out :
  get_col "Final_Exam_Score" out = Some (Float64 (clip 0.0 20.0 <$> brut)) →
  get_col "Passed_Course" out
  = Some (Int64 (passed cfg <$> (clip 0.0 20.0 <$> brut))) →
  "Final_Exam_Score_brut" ∉ column_names out →
  targets cfg brut out = out.
Proof.
  destruct out as [n cs]. unfold get_col, column_names, targets, drop_col, set_col.
  cbn. intros Hs Hf Hn. f_equal.
  rewrite (assoc_set_fresh _ _ _ Hn).
  rewrite assoc_set_app, (assoc_set_same _ _ _ Hs)
    by by eapply assoc_get_Some_names.
  rewrite assoc_set_app, (assoc_set_same _ _ _ Hf)
    by by eapply assoc_get_Some_names.
  rewrite List.filter_app. cbn. rewrite app_nil_r.
  by apply filter_names_fresh.
Qed.

(** X15. Generating again from the generated table, with the same draws,
    gives that table back: the targets are recomputed from the predictors
    alone, and an earlier [Final_Exam_Score] and [Passed_Course] do not
    enter them. *)
Theorem generate_idempotent cfg draw data out :
  generate cfg draw data = Ok out → generate cfg draw out = Ok out.
Proof.
  intros (brut & (h & p & a & Hh & Hp & Ha & ->)%brut_inv & ->)%generate_inv.
  set (brut := raw_scores _ _ _ _ _).
  rewrite (generate_total cfg draw _ h p a);
    [|unfold operand; by rewrite targets_other..].
  rewrite targets_nrows. fold brut. f_equal.
  apply targets_fixed;
    [apply targets_score|apply targets_passed|apply targets_no_brut].
Qed.

Lemma generate_idempotent_witness :
  generate source_config (λ _, 0.5%float) three_students_out = Ok three_students_out.
Proof.
  apply (generate_idempotent source_config (λ _, 0.5%float) three_students).
  vm_compute. reflexivity.
Defined.

(** ** Rows are computed one by one *)

Lemma get_col_head c k data :
  get_col c (head k data) = Series_head k <$> get_col c data.
Proof.
  unfold get_col, head. cbn.
  induction (columns data) as [|[c0 s0] cs IH]; cbn; [done|].
  by destruct (String.eqb c0 c).
Qed.

Lemma as_float64_head k s xs :
  as_float64 s = Ok xs → as_float64 (Series_head k s) = Ok (take k xs).
Proof.
  destruct s as [l|l|l|[|x l]]; cbn; intros [= <-]; rewrite ?fmap_take; try done.
  by destruct k.
Qed.

Lemma operand_head c k data xs :
  operand c data = Ok xs → operand c (head k data) = Ok (take k xs).
Proof.
  unfold operand. rewrite get_col_head.
  destruct (get_col c data) as [s|]; cbn; [apply as_float64_head|done].
Qed.

Lemma bruit_aleatoire_head cfg draw k n :
  bruit_aleatoire cfg draw (k `min` n) = take k (bruit_aleatoire cfg draw n).
Proof.
  unfold bruit_aleatoire, np_random_rand. by rewrite <-!fmap_take, take_seq.
Qed.

Lemma raw_scores_head cfg k h p a noise :
  raw_scores cfg (take k h) (take k p) (take k a) (take k noise)
  = take k (raw_scores cfg h p a noise).
Proof. unfold raw_scores. by rewrite !zip_with_take, <-!fmap_take. Qed.

Lemma assoc_set_head c k s cs :
  assoc_set c (Series_head k s) ((λ cs, (cs.1, Series_head k cs.2)) <$> cs)
  = (λ cs, (cs.1, Series_head k cs.2)) <$> assoc_set c s cs.
Proof.
  induction cs as [|[c0 s0] cs IH]; cbn; [done|].
  destruct (String.eqb c0 c); cbn; [done|]. by rewrite IH.
Qed.

Lemma drop_head c k cs :
  List.filter (λ x : string * Series, negb (String.eqb x.1 c))
    ((λ cs, (cs.1, Series_head k cs.2)) <$> cs)
  = (λ cs, (cs.1, Series_head k cs.2)) <$>
      List.filter (λ x : string * Series, negb (String.eqb x.1 c)) cs.
Proof.
  induction cs as [|[c0 s0] cs IH]; cbn; [done|].
  destruct (negb _); cbn; by rewrite IH.
Qed.

Lemma targets_head cfg brut data k :
  targets cfg (take k brut) (head k data) = head k (targets cfg brut data).
Proof.
  unfold targets, head, drop_col, set_col. cbn [nrows columns]. f_equal.
  rewrite !fmap_take. by rewrite <-drop_head, <-!assoc_set_head.
Qed.

(** X16. Rows are computed one by one: generating from the first [k] rows
    of a table gives the first [k] rows of what the whole table gives.
    Row [i] of the output depends on row [i] of the input and on draw [i]
    alone. *)
Theorem generate_head cfg draw data out k :
  generate cfg draw data = Ok out →
  generate cfg draw (head k data) = Ok (head k out).
Proof.
  intros (brut & (h & p & a & Hh & Hp & Ha & ->)%brut_inv & ->)%generate_inv.
  rewrite (generate_total cfg draw _ _ _ _
             (operand_head _ k _ _ Hh) (operand_head _ k _ _ Hp)
             (operand_head _ k _ _ Ha)).
  f_equal. cbn [head nrows].
  by rewrite bruit_aleatoire_head, raw_scores_head, targets_head.
Qed.

Lemma generate_head_witness :
  generate source_config (λ _, 0.5%float) (head 2 three_students)
  = Ok (head 2 three_students_out).
Proof. apply generate_head. vm_compute. reflexivity. Defined.
